(** * qlib: a robust "queue of integers" library (qlib.c, qlib.h)

    Shallow embedding of the ticket/slot table of qlib.c and of the ring
    buffers it owns, followed by the properties of the specification.

    Conventions of the embedding.
    - [unsigned int] and [int] are 32 bits wide; a value of either type is a
      [Z], and every conversion and every unsigned wrap-around of the source
      is written out with [to_uint] and [to_int].
    - [queues[MAXQ]] is a list of [option QUEUE] ([None] is the NULL pointer);
      [que[MAXELT]] is a list of [Z]. Both have the length their C type
      gives them, see [table_shape].
    - The globals [queues], [noncectr] and [qe_errbuf] form the [state], which
      every function takes and returns next to its C return value.
    - [malloc] is an input of [create_queue]: [None] when it returns NULL,
      [Some b] when it returns a block whose indeterminate contents are [b]. *)

From Stdlib Require Import ZArith Lia List.
From stdpp Require Import base option list.

Local Open Scope Z_scope.

(** ** Machine integers *)

Module Int32.

Definition modulus : Z := 2 ^ 32.
Definition half_modulus : Z := 2 ^ 31.

(** Conversion to [unsigned int]: reduction modulo 2^32. *)
Definition to_uint (z : Z) : Z := z mod modulus.

(** Conversion to [int]: the two's complement reading of the low 32 bits. *)
Definition to_int (z : Z) : Z :=
  let u := z mod modulus in
  if u <? half_modulus then u else u - modulus.

End Int32.
Export Int32.

(** ** Macros of qlib.h and qlib.c *)

Definition MAXQ : Z := 1024.
Definition MAXELT : Z := 1024.
Definition IOFFSET : Z := 0x1221.
Definition NOFFSET : Z := 0x0502.
Definition EMPTY : Z := -1.

Definition QE_NONE : Z := 0.
Definition QE_BADPARAM : Z := -1.
Definition QE_BADTICKET : Z := -3.
Definition QE_EMPTY : Z := -4.
Definition QE_FULL : Z := -5.
Definition QE_NOROOM : Z := -6.
Definition QE_TOOMANYQS : Z := -7.
Definition QE_INTINCON : Z := -8.
Definition QE_TOOFULL : Z := -9.

Definition QE_ISERROR (x : Z) : bool := x <? 0.

(** ** Data *)

(** [struct queue]. *)
Record QUEUE : Type := mkQUEUE {
  ticket : Z;        (* QTICKET ticket *)
  que : list Z;      (* QELT que[MAXELT] *)
  head : Z;          (* int head *)
  count : Z          (* int count *)
}.

(** What the ERRBUF macros leave in [qe_errbuf]: the format string that was
    used, with the arguments it was given. *)
Inductive errmsg : Type :=
| msg_no_error
| msg_qtktref_index (index bound : Z)
| msg_qtktref_generation (bound : Z)
| msg_readref_exceeds (index bound : Z)
| msg_readref_unused (index : Z)
| msg_readref_old (new old : Z)
| msg_readref_headcount (h c : Z)
| msg_readref_nonce0
| msg_create_toomany (bound : Z)
| msg_create_malloc
| msg_put_full (bound : Z)
| msg_take_empty.

(** The globals of qlib.c. *)
Record state : Type := mkState {
  queues : list (option QUEUE);
  noncectr : Z;
  qe_errbuf : errmsg
}.

Definition ERRBUF (m : errmsg) (s : state) : state :=
  {| queues := queues s; noncectr := noncectr s; qe_errbuf := m |}.

Definition set_noncectr (c : Z) (s : state) : state :=
  {| queues := queues s; noncectr := c; qe_errbuf := qe_errbuf s |}.

(** [queues[i]], read. The source tests every index against MAXQ before it
    uses it, so with the MAXQ entries of [table_shape] no index falls outside
    the list; one that did would read as NULL here. *)
Definition slot (s : state) (i : Z) : option QUEUE :=
  match queues s !! Z.to_nat i with
  | Some (Some q) => Some q
  | _ => None
  end.

(** [queues[i] = p]. *)
Definition set_slot (i : Z) (p : option QUEUE) (s : state) : state :=
  {| queues := <[Z.to_nat i := p]> (queues s);
     noncectr := noncectr s;
     qe_errbuf := qe_errbuf s |}.

(** [q->que[i]], read, and [q->que[i] = v]. Both are reached only after
    [readref] has found head and count within their bounds, so with the
    MAXELT cells of [queue_shape] the index is inside the array; outside it
    the read gives 0 and the write does nothing here. *)
Definition que_get (q : QUEUE) (i : Z) : Z :=
  match que q !! Z.to_nat i with
  | Some v => v
  | None => 0
  end.

Definition que_set (i v : Z) (l : list Z) : list Z := <[Z.to_nat i := v]> l.

(** The state a program starts in: every pointer of [queues] is NULL,
    [noncectr] is 1 and [qe_errbuf] holds "no error". *)
Definition init_state : state :=
  {| queues := replicate (Z.to_nat MAXQ) None;
     noncectr := 1;
     qe_errbuf := msg_no_error |}.

(** ** The functions of qlib.c *)

(** [qtktref]: generate a ticket number. *)
Definition qtktref (index : Z) (s : state) : Z * state :=
  if index >? MAXQ then
    (to_uint QE_INTINCON, ERRBUF (msg_qtktref_index index MAXQ) s)
  else
    let high := Z.land (to_uint (index + IOFFSET)) 0x7fff in
    if negb (high =? to_uint (index + IOFFSET)) then
      (to_uint QE_INTINCON,
       ERRBUF (msg_qtktref_index index (0x7fff - IOFFSET)) s)
    else
      let low := Z.land (to_uint (noncectr s + NOFFSET)) 0xffff in
      (* low != (noncectr++ + NOFFSET): the increment is part of the left
         operand of ||, so it happens whatever the comparison gives *)
      let sum := to_uint (noncectr s + NOFFSET) in
      let s1 := set_noncectr (to_uint (noncectr s + 1)) s in
      if negb (low =? sum) || (low =? 0) then
        (to_uint QE_INTINCON,
         ERRBUF (msg_qtktref_generation (0xffff - NOFFSET)) s1)
      else
        (to_uint (Z.lor (Z.shiftl high 16) low), s1).

(** The index a ticket names: its high 16 bits less [IOFFSET], as an
    [unsigned]. *)
Definition ticket_index (qno : Z) : Z :=
  to_uint (Z.land (Z.shiftr qno 16) 0xffff - IOFFSET).

(** The nonce field of a ticket: its low 16 bits. *)
Definition ticket_nonce (qno : Z) : Z := Z.land qno 0xffff.

(** [readref]: check a ticket number and turn it into an index. *)
Definition readref (qno : Z) (s : state) : Z * state :=
  let index := ticket_index qno in
  if index >=? MAXQ then
    (QE_BADTICKET, ERRBUF (msg_readref_exceeds index MAXQ) s)
  else
    match slot s index with
    | None => (QE_BADTICKET, ERRBUF (msg_readref_unused index) s)
    | Some q =>
      if negb (ticket q =? qno) then
        (QE_BADTICKET,
         ERRBUF (msg_readref_old (to_uint (ticket_nonce (ticket q) - IOFFSET))
                                 (to_uint (ticket_nonce qno - NOFFSET))) s)
      else if (head q <? 0) || (head q >=? MAXELT)
              || (count q <? 0) || (count q >? MAXELT) then
        (QE_INTINCON,
         ERRBUF (msg_readref_headcount (to_uint (head q)) (to_uint (count q))) s)
      else if ticket_nonce (ticket q) =? 0 then
        (QE_INTINCON, ERRBUF msg_readref_nonce0 s)
      else
        (to_int index, s)
    end.

(** The loop [for(cur = 0; cur < MAXQ; cur++) if (queues[cur] == NULL) break;]
    of [create_queue]. [fuel] bounds the iterations left; MAXQ of them are
    enough, see [scan_from_0]. *)
Fixpoint scan (fuel : nat) (cur : Z) (s : state) : Z :=
  match fuel with
  | O => cur
  | S fuel' =>
    if cur <? MAXQ then
      match slot s cur with
      | None => cur
      | Some _ => scan fuel' (cur + 1) s
      end
    else cur
  end.

(** [create_queue]: create a new queue. *)
Definition create_queue (blk : option QUEUE) (s : state) : Z * state :=
  let cur := scan (Z.to_nat MAXQ) 0 s in
  if cur =? MAXQ then
    (to_uint QE_TOOMANYQS, ERRBUF (msg_create_toomany MAXQ) s)
  else
    match blk with
    | None =>
      (to_uint QE_NOROOM, ERRBUF msg_create_malloc (set_slot cur None s))
    | Some b =>
      let s1 := set_slot cur (Some b) s in
      let '(t, s2) := qtktref (to_uint cur) s1 in
      let tkt := to_int t in
      if QE_ISERROR tkt then
        (to_uint tkt, set_slot cur None s2)
      else
        (to_uint tkt,
         set_slot cur (Some {| ticket := to_uint tkt; que := que b;
                               head := 0; count := 0 |}) s2)
    end.

(** [delete_queue]: delete an existing queue. *)
Definition delete_queue (qno : Z) (s : state) : Z * state :=
  let '(cur, s1) := readref qno s in
  if QE_ISERROR cur then (cur, s1)
  else (QE_NONE, set_slot cur None s1).

(** [put_on_queue]: add an element to an existing queue. *)
Definition put_on_queue (qno n : Z) (s : state) : Z * state :=
  let '(cur, s1) := readref qno s in
  if QE_ISERROR cur then (cur, s1)
  else
    match slot s1 cur with
    | None => (QE_INTINCON, s1)   (* not reached: readref found the queue *)
    | Some q =>
      if count q =? MAXELT then
        (QE_TOOFULL, ERRBUF (msg_put_full MAXELT) s1)
      else
        let q1 := {| ticket := ticket q;
                     que := que_set (Z.rem (head q + count q) MAXELT) n (que q);
                     head := head q;
                     count := count q + 1 |} in
        (QE_NONE, set_slot cur (Some q1) s1)
    end.

(** [take_off_queue]: take an element off the front of an existing queue. *)
Definition take_off_queue (qno : Z) (s : state) : Z * state :=
  let '(cur, s1) := readref qno s in
  if QE_ISERROR cur then (cur, s1)
  else
    match slot s1 cur with
    | None => (QE_INTINCON, s1)   (* not reached: readref found the queue *)
    | Some q =>
      if count q =? 0 then
        (QE_EMPTY, ERRBUF msg_take_empty s1)
      else
        let n := head q in
        let q1 := {| ticket := ticket q;
                     que := que q;
                     head := Z.rem (head q + 1) MAXELT;
                     count := count q - 1 |} in
        (que_get q n, set_slot cur (Some q1) s1)
    end.

(** ** Sequences of calls *)

(** A call of one of the four public functions. *)
Inductive op : Type :=
| OpCreate (blk : option QUEUE)
| OpDelete (qno : Z)
| OpPut (qno n : Z)
| OpTake (qno : Z).

Definition step (o : op) (s : state) : Z * state :=
  match o with
  | OpCreate blk => create_queue blk s
  | OpDelete qno => delete_queue qno s
  | OpPut qno n => put_on_queue qno n s
  | OpTake qno => take_off_queue qno s
  end.

(** The values a sequence of calls returns, and the state it ends in. *)
Fixpoint run (ops : list op) (s : state) : list Z * state :=
  match ops with
  | [] => ([], s)
  | o :: ops' =>
    let '(r, s1) := step o s in
    let '(rs, s2) := run ops' s1 in
    (r :: rs, s2)
  end.

(** [put_on_queue(qno, v)] for each [v] of [vs], in order. *)
Definition put_all (qno : Z) (vs : list Z) : state -> list Z * state :=
  run (map (OpPut qno) vs).

(** [take_off_queue(qno)], [n] times. *)
Definition take_n (qno : Z) (n : nat) : state -> list Z * state :=
  run (repeat (OpTake qno) n).

(** ** Bookkeeping on sequences of calls *)

(** The number of [create_queue] calls in a sequence. *)
Fixpoint creates (ops : list op) : nat :=
  match ops with
  | [] => O
  | OpCreate _ :: ops' => S (creates ops')
  | _ :: ops' => creates ops'
  end.

(** The tickets a sequence of calls was given: the values its
    [create_queue] calls returned that are not error codes. [rs] are the
    values the calls returned, in order. *)
Fixpoint issued (ops : list op) (rs : list Z) : list Z :=
  match ops, rs with
  | OpCreate _ :: ops', r :: rs' =>
    if QE_ISERROR (to_int r) then issued ops' rs' else r :: issued ops' rs'
  | _ :: ops', _ :: rs' => issued ops' rs'
  | _, _ => []
  end.

(** ** Predicates on states *)

(** The lengths the C array types give: [queues] has MAXQ entries and every
    [que] has MAXELT. *)
Definition queue_shape (q : QUEUE) : Prop :=
  length (que q) = Z.to_nat MAXELT.

Definition table_shape (s : state) : Prop :=
  length (queues s) = Z.to_nat MAXQ.

(** The consistency conditions [readref] tests on a queue. *)
Definition queue_ok (q : QUEUE) : bool :=
  (0 <=? head q) && (head q <? MAXELT)
  && (0 <=? count q) && (count q <=? MAXELT)
  && negb (ticket_nonce (ticket q) =? 0).

Definition slot_ok (p : option QUEUE) : bool :=
  match p with
  | None => true
  | Some q => queue_ok q
  end.

(** Every occupied slot is consistent. *)
Definition table_ok (s : state) : bool := forallb slot_ok (queues s).

(** [qno] is the ticket of the live, consistent queue [q] of [s]. *)
Definition live (qno : Z) (s : state) (q : QUEUE) : Prop :=
  ticket_index qno < MAXQ /\
  slot s (ticket_index qno) = Some q /\
  ticket q = qno /\
  queue_ok q = true.

(** The elements a queue holds, oldest first. *)
Definition contents (q : QUEUE) : list Z :=
  map (fun k => que_get q (Z.rem (head q + Z.of_nat k) MAXELT))
      (seq 0 (Z.to_nat (count q))).

(** The states a program can be in: those a sequence of calls leads to from
    [init_state]. *)
Definition reachable (s : state) : Prop :=
  exists ops, snd (run ops init_state) = s.

(** The number of NULL pointers in [queues]. *)
Fixpoint free_slots (l : list (option QUEUE)) : nat :=
  match l with
  | [] => O
  | None :: l' => S (free_slots l')
  | Some _ :: l' => free_slots l'
  end.

(** No pointer of [queues] is NULL. *)
Definition table_full (s : state) : bool :=
  forallb (fun p : option QUEUE => match p with Some _ => true | None => false end)
          (queues s).

(** Every stored ticket names the slot it is stored in. *)
Definition tickets_indexed (s : state) : Prop :=
  forall i q, queues s !! i = Some (Some q) ->
              ticket_index (ticket q) = Z.of_nat i.

(** [P] holds of every ticket stored in the table. *)
Definition stored (P : Z -> Prop) (s : state) : Prop :=
  forall i q, queues s !! i = Some (Some q) -> P (ticket q).

(** Every stored ticket was minted at a counter value below the current
    one. *)
Definition minted_below (s : state) : Prop :=
  stored (fun t => ticket_nonce t < noncectr s + NOFFSET) s.

(** [h] was minted at a counter value below the current one and is stored
    nowhere: it is the ticket of a deleted queue. *)
Definition spent (h : Z) (s : state) : Prop :=
  ticket_nonce h < noncectr s + NOFFSET /\ stored (fun t => t <> h) s.

(** The ticket [qtktref] builds for slot [cur] when the counter is such that
    [noncectr + NOFFSET] is [sum]. *)
Definition mk_ticket (cur sum : Z) : Z := (cur + IOFFSET) * 2 ^ 16 + sum.

(** ** Sample inputs *)

(** A block as [malloc] may return it: MAXELT elements, nothing initialised. *)
Definition fresh_block : QUEUE :=
  {| ticket := 77; que := replicate (Z.to_nat MAXELT) 5;
     head := -9; count := 33 |}.

(** The ticket of the first queue a program creates: index 0, counter 1. *)
Definition first_ticket : Z := 0x12210503.

(** The state after the first [create_queue] of a program. *)
Definition one_queue : state := snd (create_queue (Some fresh_block) init_state).

(** The state after that queue was filled with MAXELT copies of 7. *)
Definition full_queue : state :=
  snd (put_all first_ticket (replicate (Z.to_nat MAXELT) 7) one_queue).

(** Two queues created and the first one deleted: slot 0 is free again,
    slot 1 is in use. *)
Definition slot0_freed : state :=
  snd (run [OpCreate (Some fresh_block); OpCreate (Some fresh_block);
            OpDelete first_ticket] init_state).

(** A table without a free slot: slot [i] holds an empty queue with the
    ticket minted for it at counter [i + 1]. *)
Definition full_table : state :=
  {| queues :=
       map (fun i : nat =>
              Some {| ticket := mk_ticket (Z.of_nat i) (Z.of_nat i + 1 + NOFFSET);
                      que := que fresh_block; head := 0; count := 0 |})
           (seq 0 (Z.to_nat MAXQ));
     noncectr := MAXQ + 1;
     qe_errbuf := msg_no_error |}.

(** A queue whose oldest element is -3, the value of QE_BADTICKET. *)
Definition holds_minus3 : state := snd (put_on_queue first_ticket (-3) one_queue).

(** Three queues created and the second one deleted. *)
Definition two_of_three : state :=
  snd (run [OpCreate (Some fresh_block); OpCreate (Some fresh_block);
            OpCreate (Some fresh_block); OpDelete 0x12220504] init_state).

(** A program fragment, [t = create_queue(); if (!QE_ISERROR((int) t))
    delete_queue(t);], that leaves the table as it finds it. *)
Definition churn (b : QUEUE) (s : state) : state :=
  let '(t, s1) := create_queue (Some b) s in
  if QE_ISERROR (to_int t) then s1 else snd (delete_queue t s1).

(** The state after [n] rounds of [churn] in a program that does nothing
    else. *)
Definition churned (n : N) : state := N.iter n (churn fresh_block) init_state.

(** A table without a free slot in which no ticket can be minted any more:
    after 63229 rounds of [churn] the counter is 0xFAFE - MAXQ, and the MAXQ
    queues the program creates then take the last generation values, up to
    0xFFFF, and leave the counter at 0xFAFE. *)
Definition filled_late : state :=
  snd (run (repeat (OpCreate (Some fresh_block)) (Z.to_nat MAXQ))
           (churned 63229)).

(** The start of a program that revives a ticket: a queue is created and
    deleted, and a second queue is created in its slot and deleted too. *)
Definition stale_prefix : list op :=
  [OpCreate (Some fresh_block); OpDelete first_ticket;
   OpCreate (Some fresh_block); OpDelete 0x12210504].

(** The program goes on with 2^32 - 2 rounds of [churn]. *)
Definition stale_round : state :=
  N.iter 4294967294 (churn fresh_block) (snd (run stale_prefix init_state)).

(** ** The debugging lister of qlib.c *)

(** What [list_queue] writes to stdout: the header
    [queue (index=%u, nonce=%u, count=%d, start=%d): ], an element [%d ], or
    the newline of [putchar]. *)
Inductive print : Type :=
| print_header (index nonce cnt start : Z)
| print_elt (v : Z)
| print_newline.

(** The loop [do { printf("%d ", q->que[l]); l = (l + 1) % MAXELT; }
    while (l != m);] of [list_queue]. [None] when [fuel] iterations do not
    reach the end of the loop; MAXELT of them always do, see
    [list_queue_returns]. *)
Fixpoint list_loop (fuel : nat) (q : QUEUE) (l m : Z) : option (list print) :=
  match fuel with
  | O => None
  | S fuel' =>
    let out := print_elt (que_get q l) in
    let l' := Z.rem (l + 1) MAXELT in
    if negb (l' =? m) then
      match list_loop fuel' q l' m with
      | Some outs => Some (out :: outs)
      | None => None
      end
    else Some [out]
  end.

(** [list_queue]: list the elements of a queue to stdout. The result is the
    return value, the state and what was printed. *)
Definition list_queue (qno : Z) (s : state) : option (Z * state * list print) :=
  let '(cur, s1) := readref qno s in
  if QE_ISERROR cur then Some (cur, s1, [])
  else
    match slot s1 cur with
    | None => Some (QE_INTINCON, s1, [])   (* not reached: readref found the queue *)
    | Some q =>
      let hdr := print_header (to_uint cur) (Z.land qno 0xffff)
                              (count q) (head q) in
      let body :=
        if negb (head q =? EMPTY) then
          list_loop (Z.to_nat MAXELT) q (head q)
                    (Z.rem (head q + count q) MAXELT)
        else Some [] in
      match body with
      | Some outs => Some (QE_NONE, s1, hdr :: outs ++ [print_newline])
      | None => None
      end
    end.

(** ** A bounded FIFO of integers, as a list *)

(** What a queue of capacity MAXELT answers to a put or a take, and what it
    holds afterwards, when the queue is the list of its elements, oldest
    first. Calls other than puts and takes leave it alone. *)
Definition fifo_model_step (o : op) (l : list Z) : Z * list Z :=
  match o with
  | OpPut _ n =>
    if Z.of_nat (length l) =? MAXELT then (QE_TOOFULL, l)
    else (QE_NONE, l ++ [n])
  | OpTake _ =>
    match l with
    | [] => (QE_EMPTY, [])
    | v :: l' => (v, l')
    end
  | _ => (QE_NONE, l)
  end.

Fixpoint fifo_model_run (ops : list op) (l : list Z) : list Z * list Z :=
  match ops with
  | [] => ([], l)
  | o :: ops' =>
    let '(r, l1) := fifo_model_step o l in
    let '(rs, l2) := fifo_model_run ops' l1 in
    (r :: rs, l2)
  end.

(** [o] is a put or a take on the queue of ticket [qno]. *)
Definition queue_op (qno : Z) (o : op) : bool :=
  match o with
  | OpPut q _ | OpTake q => q =? qno
  | _ => false
  end.

(** [o] is a call made with the ticket [qno]. *)
Definition uses_ticket (qno : Z) (o : op) : bool :=
  match o with
  | OpCreate _ => false
  | OpDelete q | OpPut q _ | OpTake q => q =? qno
  end.

(** The table is in use up to slot [k] and free from there on. *)
Definition filled_to (k : Z) (s : state) : Prop :=
  table_shape s /\
  (forall j, 0 <= j < k -> slot s j <> None) /\
  (forall j, k <= j < MAXQ -> slot s j = None).

(** [create_queue()] once for each block of [bs], [malloc] returning these
    blocks in turn. *)
Definition create_all (bs : list QUEUE) : state -> list Z * state :=
  run (map (fun b => OpCreate (Some b)) bs).

(** * Properties *)

(** ** Machine integers and bit fields *)

Lemma to_uint_range z : 0 <= to_uint z < 2 ^ 32.
Proof. unfold to_uint, modulus. apply Z.mod_pos_bound. lia. Qed.

Lemma to_uint_small z : 0 <= z < 2 ^ 32 -> to_uint z = z.
Proof. intros H. unfold to_uint, modulus. apply Z.mod_small. lia. Qed.

Lemma to_int_small z : 0 <= z < 2 ^ 31 -> to_int z = z.
Proof.
  intros H. unfold to_int, modulus, half_modulus.
  rewrite Z.mod_small by lia.
  destruct (Z.ltb_spec z (2 ^ 31)); lia.
Qed.

Lemma land_low16 z : Z.land z 0xffff = z mod 2 ^ 16.
Proof. change 0xffff with (Z.ones 16). apply Z.land_ones. lia. Qed.

Lemma land_low15 z : Z.land z 0x7fff = z mod 2 ^ 15.
Proof. change 0x7fff with (Z.ones 15). apply Z.land_ones. lia. Qed.

Lemma lor_shiftl16 h l :
  0 <= l < 2 ^ 16 -> Z.lor (Z.shiftl h 16) l = h * 2 ^ 16 + l.
Proof.
  intros Hl. rewrite <- Z.shiftl_mul_pow2 by lia.
  symmetry. apply Z.add_nocarry_lor.
  apply Z.bits_inj'. intros n Hn.
  rewrite Z.land_spec, Z.bits_0.
  destruct (Z.ltb_spec n 16) as [Hlt | Hge].
  - rewrite Z.shiftl_spec_low by lia. reflexivity.
  - rewrite <- (Z.mod_small l (2 ^ 16)) by lia.
    rewrite Z.mod_pow2_bits_high by lia. apply andb_false_r.
Qed.

(** The two fields of a packed ticket. *)
Lemma ticket_fields h l :
  0 <= h < 2 ^ 15 -> 0 <= l < 2 ^ 16 ->
  let t := Z.lor (Z.shiftl h 16) l in
  0 <= t < 2 ^ 31 /\ Z.land (Z.shiftr t 16) 0xffff = h /\ ticket_nonce t = l.
Proof.
  intros Hh Hl t. unfold t, ticket_nonce.
  rewrite lor_shiftl16 by lia.
  rewrite !land_low16, Z.shiftr_div_pow2 by lia.
  rewrite Z.div_add_l, Z.div_small, Z.add_0_r by lia.
  rewrite Z.mod_small by lia.
  rewrite Z.add_comm, Z.mod_add, Z.mod_small by lia.
  lia.
Qed.

(** ** qtktref *)

Lemma qtktref_queues index s : queues (snd (qtktref index s)) = queues s.
Proof.
  unfold qtktref.
  repeat match goal with |- context [if ?b then _ else _] => destruct b end;
    reflexivity.
Qed.

(** For an index that passes the first test, the 15-bit test on
    [index + IOFFSET] passes as well, and the outcome is decided by
    [noncectr + NOFFSET], computed in [unsigned] arithmetic. *)
Lemma qtktref_in_range index s :
  0 <= index <= MAXQ ->
  qtktref index s =
    let sum := to_uint (noncectr s + NOFFSET) in
    let s1 := set_noncectr (to_uint (noncectr s + 1)) s in
    if (2 ^ 16 <=? sum) || (sum =? 0) then
      (to_uint QE_INTINCON,
       ERRBUF (msg_qtktref_generation (0xffff - NOFFSET)) s1)
    else (mk_ticket index sum, s1).
Proof.
  intros Hi. unfold mk_ticket, qtktref, MAXQ, IOFFSET in *.
  destruct (Z.gtb_spec index 1024) as [? | _]; [lia |].
  rewrite (to_uint_small (index + 0x1221)) by lia.
  rewrite land_low15, (Z.mod_small (index + 0x1221)) by lia.
  rewrite Z.eqb_refl. cbn [negb].
  pose proof (to_uint_range (noncectr s + NOFFSET)) as Hsum.
  set (sum := to_uint (noncectr s + NOFFSET)) in *.
  rewrite land_low16. cbv zeta.
  destruct (Z.leb_spec (2 ^ 16) sum) as [Hbig | Hsmall].
  - assert (sum mod 2 ^ 16 <> sum)
      by (pose proof (Z.mod_pos_bound sum (2 ^ 16)); lia).
    destruct (Z.eqb_spec (sum mod 2 ^ 16) sum); [lia | reflexivity].
  - rewrite (Z.mod_small sum) by lia.
    rewrite Z.eqb_refl. cbn [negb orb].
    destruct (Z.eqb_spec sum 0); [reflexivity |].
    rewrite lor_shiftl16 by lia.
    rewrite to_uint_small by lia. reflexivity.
Qed.

(** ** readref *)

Lemma queue_ok_spec q :
  queue_ok q = true <->
  0 <= head q < MAXELT /\ 0 <= count q <= MAXELT /\
  ticket_nonce (ticket q) <> 0.
Proof.
  unfold queue_ok.
  rewrite !andb_true_iff, negb_true_iff, Z.eqb_neq.
  rewrite !Z.leb_le, !Z.ltb_lt. lia.
Qed.

(** [readref] writes nothing but [qe_errbuf]. *)
Lemma readref_frame qno s :
  queues (snd (readref qno s)) = queues s /\
  noncectr (snd (readref qno s)) = noncectr s.
Proof.
  unfold readref.
  repeat match goal with
         | |- context [if ?b then _ else _] => destruct b
         | |- context [match ?o with Some _ => _ | None => _ end] => destruct o
         end; split; reflexivity.
Qed.

Lemma ticket_index_range qno : 0 <= ticket_index qno < 2 ^ 32.
Proof. apply to_uint_range. Qed.

(** The tests of [readref], in the order the function makes them. *)
Lemma readref_cases qno s :
  let index := ticket_index qno in
  (MAXQ <= index /\ fst (readref qno s) = QE_BADTICKET) \/
  (index < MAXQ /\ slot s index = None /\
   fst (readref qno s) = QE_BADTICKET) \/
  (exists q, index < MAXQ /\ slot s index = Some q /\ ticket q <> qno /\
             fst (readref qno s) = QE_BADTICKET) \/
  (exists q, index < MAXQ /\ slot s index = Some q /\ ticket q = qno /\
             queue_ok q = false /\ fst (readref qno s) = QE_INTINCON) \/
  (exists q, live qno s q /\ readref qno s = (index, s)).
Proof.
  intros index. unfold readref, live. fold index.
  pose proof (ticket_index_range qno) as Hr. fold index in Hr.
  destruct (Z.geb_spec index MAXQ) as [Hge | Hlt].
  { left. split; [lia | reflexivity]. }
  destruct (slot s index) as [q |] eqn:Hslot.
  2:{ right; left. auto. }
  destruct (Z.eqb_spec (ticket q) qno) as [Heq | Hne]; cbn [negb].
  2:{ right; right; left. exists q. auto. }
  destruct ((head q <? 0) || (head q >=? MAXELT) || (count q <? 0)
            || (count q >? MAXELT)) eqn:Hhc.
  { right; right; right; left. exists q. repeat split; auto.
    apply not_true_is_false. rewrite queue_ok_spec. intros (Hh & Hc & _).
    rewrite !orb_true_iff, !Z.ltb_lt in Hhc.
    rewrite Z.geb_le, Z.gtb_lt in Hhc. lia. }
  rewrite !orb_false_iff, !Z.ltb_ge in Hhc.
  destruct Hhc as [[[Hh0 Hh1] Hc0] Hc1].
  destruct (Z.geb_spec (head q) MAXELT) as [? | Hh1']; [discriminate |].
  destruct (Z.gtb_spec (count q) MAXELT) as [? | Hc1']; [discriminate |].
  destruct (Z.eqb_spec (ticket_nonce (ticket q)) 0) as [Hz | Hnz].
  { right; right; right; left. exists q. repeat split; auto.
    apply not_true_is_false. rewrite queue_ok_spec. tauto. }
  right; right; right; right. exists q. split.
  - repeat split; auto. apply queue_ok_spec. lia.
  - rewrite to_int_small; [reflexivity |]. unfold MAXQ in Hlt. lia.
Qed.

(** A ticket is accepted exactly when it is the ticket of a live queue. *)
Lemma readref_live qno s q :
  live qno s q -> readref qno s = (ticket_index qno, s).
Proof.
  intros (Hlt & Hslot & Hty & Hok).
  destruct (readref_cases qno s)
    as [[? _] | [(_ & Hn & _) | [(q' & _ & Hs & Hne & _) |
        [(q' & _ & Hs & _ & Hbad & _) | (q' & _ & Heq)]]]];
    try lia; try congruence.
Qed.

Lemma readref_accepts qno s :
  QE_ISERROR (fst (readref qno s)) = false ->
  exists q, live qno s q /\ readref qno s = (ticket_index qno, s).
Proof.
  intros Hok.
  destruct (readref_cases qno s)
    as [[_ Hr] | [(_ & _ & Hr) | [(q' & _ & _ & _ & Hr) |
        [(q' & _ & _ & _ & _ & Hr) | (q' & Hl & Heq)]]]];
    try (rewrite Hr in Hok; discriminate).
  exists q'. auto.
Qed.

(** When [readref] accepts a ticket, the pointer at the index it returns is
    not NULL: the branches of [put_on_queue] and [take_off_queue] for a NULL
    pointer are never taken. *)
Lemma readref_accepts_occupied qno s :
  QE_ISERROR (fst (readref qno s)) = false ->
  slot (snd (readref qno s)) (fst (readref qno s)) <> None.
Proof.
  intros Hok. destruct (readref_accepts qno s Hok) as (q & Hl & ->).
  cbn [fst snd]. destruct Hl as (_ & -> & _). discriminate.
Qed.

Lemma live_index_range qno s q : live qno s q -> 0 <= ticket_index qno < MAXQ.
Proof. intros (Hlt & _). pose proof (ticket_index_range qno). lia. Qed.

Lemma live_error_free qno s q :
  live qno s q -> QE_ISERROR (ticket_index qno) = false.
Proof.
  intros Hl. apply live_index_range in Hl.
  unfold QE_ISERROR. apply Z.ltb_ge. lia.
Qed.

(** ** Reading and writing the table *)

Lemma slot_lookup s i q :
  slot s i = Some q <-> queues s !! Z.to_nat i = Some (Some q).
Proof.
  unfold slot. destruct (queues s !! Z.to_nat i) as [[q' |] |];
    split; intros H; congruence.
Qed.

Lemma slot_in_table s i q :
  slot s i = Some q -> (Z.to_nat i < length (queues s))%nat.
Proof. rewrite slot_lookup. apply lookup_lt_Some. Qed.

Lemma slot_set_slot_eq i p s :
  (Z.to_nat i < length (queues s))%nat -> slot (set_slot i p s) i = p.
Proof.
  intros Hlt. unfold slot, set_slot. cbn [queues].
  rewrite list_lookup_insert_eq by assumption. destruct p; reflexivity.
Qed.

Lemma slot_set_slot_ne i j p s :
  Z.to_nat i <> Z.to_nat j -> slot (set_slot i p s) j = slot s j.
Proof.
  intros Hne. unfold slot, set_slot. cbn [queues].
  rewrite list_lookup_insert_ne by assumption. reflexivity.
Qed.

Lemma set_slot_same i q s : slot s i = Some q -> queues (set_slot i (Some q) s) = queues s.
Proof.
  rewrite slot_lookup. intros H. unfold set_slot. cbn [queues].
  apply list_insert_id. assumption.
Qed.

Lemma table_shape_set_slot i p s : table_shape s -> table_shape (set_slot i p s).
Proof.
  unfold table_shape, set_slot. cbn [queues]. rewrite length_insert. auto.
Qed.

(** ** The three functions that take a ticket *)

(** A ticket [readref] rejects is rejected by each of them, with the value
    and the state [readref] returns. *)
Lemma rejected_by_all qno s :
  QE_ISERROR (fst (readref qno s)) = true ->
  delete_queue qno s = readref qno s /\
  (forall n, put_on_queue qno n s = readref qno s) /\
  take_off_queue qno s = readref qno s.
Proof.
  intros Herr. unfold delete_queue, put_on_queue, take_off_queue.
  destruct (readref qno s) as [cur s1]. cbn [fst] in Herr.
  rewrite Herr. auto.
Qed.

Lemma delete_queue_live qno s q :
  live qno s q ->
  delete_queue qno s = (QE_NONE, set_slot (ticket_index qno) None s).
Proof.
  intros Hl. unfold delete_queue.
  rewrite (readref_live _ _ _ Hl), (live_error_free _ _ _ Hl). reflexivity.
Qed.

Lemma put_on_queue_live qno n s q :
  live qno s q ->
  put_on_queue qno n s =
    if count q =? MAXELT then (QE_TOOFULL, ERRBUF (msg_put_full MAXELT) s)
    else (QE_NONE,
          set_slot (ticket_index qno)
            (Some {| ticket := ticket q;
                     que := que_set (Z.rem (head q + count q) MAXELT) n (que q);
                     head := head q;
                     count := count q + 1 |}) s).
Proof.
  intros Hl. unfold put_on_queue.
  rewrite (readref_live _ _ _ Hl), (live_error_free _ _ _ Hl).
  destruct Hl as (_ & -> & _). reflexivity.
Qed.

Lemma take_off_queue_live qno s q :
  live qno s q ->
  take_off_queue qno s =
    if count q =? 0 then (QE_EMPTY, ERRBUF msg_take_empty s)
    else (que_get q (head q),
          set_slot (ticket_index qno)
            (Some {| ticket := ticket q;
                     que := que q;
                     head := Z.rem (head q + 1) MAXELT;
                     count := count q - 1 |}) s).
Proof.
  intros Hl. unfold take_off_queue.
  rewrite (readref_live _ _ _ Hl), (live_error_free _ _ _ Hl).
  destruct Hl as (_ & -> & _). reflexivity.
Qed.

(** Writing a consistent queue with the same ticket over a live one leaves
    the ticket live. *)
Lemma live_set_slot qno s q q1 :
  live qno s q -> ticket q1 = qno -> queue_ok q1 = true ->
  live qno (set_slot (ticket_index qno) (Some q1) s) q1.
Proof.
  intros (Hlt & Hslot & _ & _) Ht Hok. repeat split; auto.
  apply slot_set_slot_eq. eapply slot_in_table; eauto.
Qed.

(** ** The scan of create_queue *)

Lemma scan_spec fuel cur s :
  0 <= cur -> cur + Z.of_nat fuel = MAXQ ->
  let r := scan fuel cur s in
  cur <= r <= MAXQ /\
  (forall j, cur <= j < r -> slot s j <> None) /\
  (r < MAXQ -> slot s r = None).
Proof.
  revert cur. induction fuel as [| fuel IH]; intros cur Hc Hf; cbn [scan].
  - cbv zeta. repeat split; intros; lia.
  - destruct (Z.ltb_spec cur MAXQ) as [Hlt | Hge]; [| lia].
    destruct (slot s cur) as [q |] eqn:Hs.
    + destruct (IH (cur + 1)) as (Hr & Hocc & Hfree); [lia | lia |].
      cbv zeta. repeat split; try lia; auto.
      intros j Hj. destruct (Z.eq_dec j cur) as [-> | Hne].
      * congruence.
      * apply Hocc. lia.
    + cbv zeta. repeat split; intros; try lia. assumption.
Qed.

(** The loop runs to its end with the fuel it is given: it returns the least
    index of a NULL entry, or MAXQ when there is none. *)
Lemma scan_from_0 s :
  let cur := scan (Z.to_nat MAXQ) 0 s in
  0 <= cur <= MAXQ /\
  (forall j, 0 <= j < cur -> slot s j <> None) /\
  (cur < MAXQ -> slot s cur = None).
Proof. apply scan_spec; [lia | reflexivity]. Qed.

Lemma scan_least s i :
  0 <= i < MAXQ -> slot s i = None ->
  (forall j, 0 <= j < i -> slot s j <> None) ->
  scan (Z.to_nat MAXQ) 0 s = i.
Proof.
  intros Hi Hfree Hocc.
  destruct (scan_from_0 s) as (Hr & Hocc' & Hfree').
  set (cur := scan (Z.to_nat MAXQ) 0 s) in *.
  destruct (Z.lt_trichotomy cur i) as [Hlt | [Heq | Hgt]]; [| assumption |].
  - exfalso. apply (Hocc cur); [lia |]. apply Hfree'. lia.
  - exfalso. apply (Hocc' i); [lia | assumption].
Qed.

Lemma scan_full s :
  (forall i, 0 <= i < MAXQ -> slot s i <> None) ->
  scan (Z.to_nat MAXQ) 0 s = MAXQ.
Proof.
  intros Hocc. destruct (scan_from_0 s) as (Hr & _ & Hfree').
  set (cur := scan (Z.to_nat MAXQ) 0 s) in *.
  destruct (Z.eq_dec cur MAXQ) as [| Hne]; [assumption |].
  exfalso. apply (Hocc cur); [lia |]. apply Hfree'. lia.
Qed.

(** ** create_queue *)

Lemma set_slot_None_id s i :
  slot s i = None -> <[Z.to_nat i := None]> (queues s) = queues s.
Proof.
  unfold slot. intros H.
  destruct (queues s !! Z.to_nat i) as [[q |] |] eqn:Hl; try discriminate.
  - apply list_insert_id. assumption.
  - apply list_insert_ge. apply lookup_ge_None. assumption.
Qed.

Lemma mk_ticket_fields cur sum :
  0 <= cur <= MAXQ -> 0 <= sum < 2 ^ 16 ->
  let t := mk_ticket cur sum in
  0 <= t < 2 ^ 31 /\ ticket_index t = cur /\ ticket_nonce t = sum.
Proof.
  intros Hc Hs t. unfold MAXQ in Hc.
  assert (Hh : 0 <= cur + IOFFSET < 2 ^ 15) by (unfold IOFFSET; lia).
  destruct (ticket_fields (cur + IOFFSET) sum Hh Hs) as (Hr & Hi & Hn).
  rewrite lor_shiftl16 in Hr, Hi, Hn by lia.
  fold (mk_ticket cur sum) in Hr, Hi, Hn. fold t in Hr, Hi, Hn.
  repeat split; try lia; auto.
  unfold ticket_index. rewrite Hi.
  replace (cur + IOFFSET - IOFFSET) with cur by lia.
  apply to_uint_small. lia.
Qed.

(** The four ways a call of [create_queue] ends. *)
Lemma create_queue_cases blk s :
  let cur := scan (Z.to_nat MAXQ) 0 s in
  let sum := to_uint (noncectr s + NOFFSET) in
  let r := create_queue blk s in
  (cur = MAXQ /\
   r = (to_uint QE_TOOMANYQS, ERRBUF (msg_create_toomany MAXQ) s)) \/
  (cur < MAXQ /\ blk = None /\ fst r = to_uint QE_NOROOM /\
   queues (snd r) = queues s /\ noncectr (snd r) = noncectr s) \/
  (cur < MAXQ /\ blk <> None /\ ~ 0 < sum < 2 ^ 16 /\
   fst r = to_uint QE_INTINCON /\
   queues (snd r) = queues s /\
   noncectr (snd r) = to_uint (noncectr s + 1)) \/
  (cur < MAXQ /\ 0 < sum < 2 ^ 16 /\
   exists b, blk = Some b /\
   fst r = mk_ticket cur sum /\
   queues (snd r) =
     <[Z.to_nat cur := Some {| ticket := mk_ticket cur sum; que := que b;
                               head := 0; count := 0 |}]> (queues s) /\
   noncectr (snd r) = to_uint (noncectr s + 1)).
Proof.
  intros cur sum r. unfold r, create_queue. fold cur.
  destruct (scan_from_0 s) as (Hr & _ & Hfree). fold cur in Hr, Hfree.
  clearbody cur.
  destruct (Z.eqb_spec cur MAXQ) as [Hfull | Hnf].
  { left. auto. }
  right. assert (Hlt : cur < MAXQ) by lia. specialize (Hfree Hlt).
  destruct blk as [b |].
  2:{ left. cbn [fst snd ERRBUF set_slot queues noncectr].
      rewrite set_slot_None_id by assumption. auto. }
  right.
  rewrite (to_uint_small cur) by (unfold MAXQ in Hlt; lia).
  rewrite qtktref_in_range by lia.
  cbn [set_slot noncectr]. fold sum. cbv zeta.
  pose proof (to_uint_range (noncectr s + NOFFSET)) as Hsum. fold sum in Hsum.
  clearbody sum.
  destruct ((2 ^ 16 <=? sum) || (sum =? 0)) eqn:Hcond.
  - left. rewrite orb_true_iff, Z.leb_le, Z.eqb_eq in Hcond.
    change (to_int (to_uint QE_INTINCON)) with QE_INTINCON.
    change (QE_ISERROR QE_INTINCON) with true. cbv iota.
    cbn [fst snd ERRBUF set_slot set_noncectr queues noncectr].
    rewrite list_insert_insert_eq, set_slot_None_id by assumption.
    repeat split; try lia; try reflexivity. discriminate.
  - right. rewrite orb_false_iff, Z.leb_gt, Z.eqb_neq in Hcond.
    assert (Hs : 0 <= sum < 2 ^ 16) by lia.
    destruct (mk_ticket_fields cur sum ltac:(lia) Hs) as (Ht & _ & _).
    rewrite (to_int_small (mk_ticket cur sum)) by assumption.
    assert (Hne : QE_ISERROR (mk_ticket cur sum) = false)
      by (apply Z.ltb_ge; lia).
    rewrite Hne, (to_uint_small (mk_ticket cur sum)) by lia.
    cbn [fst snd ERRBUF set_slot set_noncectr queues noncectr].
    rewrite list_insert_insert_eq.
    split; [assumption |]. split; [lia |]. exists b. auto.
Qed.

(** ** Consistency of the table *)

Lemma forallb_insert {A} (f : A -> bool) (l : list A) (i : nat) (x : A) :
  forallb f l = true -> f x = true -> forallb f (<[i:=x]> l) = true.
Proof.
  revert i. induction l as [| a l IH]; intros i Hl Hx; [assumption |].
  cbn [forallb] in Hl. apply andb_true_iff in Hl as [Ha Hl].
  destruct i as [| i]; cbn; apply andb_true_iff; auto.
Qed.

Lemma table_ok_set_slot i p s :
  table_ok s = true -> slot_ok p = true -> table_ok (set_slot i p s) = true.
Proof. unfold table_ok, set_slot. cbn [queues]. apply forallb_insert. Qed.

Lemma table_ok_queues s s' : queues s' = queues s -> table_ok s' = table_ok s.
Proof. unfold table_ok. intros ->. reflexivity. Qed.

Lemma table_ok_slot s i q : table_ok s = true -> slot s i = Some q -> queue_ok q = true.
Proof.
  unfold table_ok. rewrite slot_lookup, forallb_forall. intros Hall Hl.
  apply (Hall (Some q)). apply list_elem_of_In.
  eapply list_elem_of_lookup_2. eassumption.
Qed.

Lemma rem_MAXELT_range z : 0 <= z -> 0 <= Z.rem z MAXELT < MAXELT.
Proof. intros Hz. apply Z.rem_bound_pos; [assumption | reflexivity]. Qed.

Lemma queue_ok_put q n :
  queue_ok q = true -> count q <> MAXELT ->
  queue_ok {| ticket := ticket q;
              que := que_set (Z.rem (head q + count q) MAXELT) n (que q);
              head := head q;
              count := count q + 1 |} = true.
Proof. rewrite !queue_ok_spec. cbn [ticket head count]. lia. Qed.

Lemma queue_ok_take q :
  queue_ok q = true -> count q <> 0 ->
  queue_ok {| ticket := ticket q;
              que := que q;
              head := Z.rem (head q + 1) MAXELT;
              count := count q - 1 |} = true.
Proof.
  rewrite !queue_ok_spec. cbn [ticket head count]. intros (Hh & Hc & Hn) Hne.
  pose proof (rem_MAXELT_range (head q + 1)). lia.
Qed.

Lemma table_ok_create_queue blk s :
  table_ok s = true -> table_ok (snd (create_queue blk s)) = true.
Proof.
  intros Hok.
  destruct (create_queue_cases blk s)
    as [[_ ->] | [(_ & _ & _ & Hq & _) | [(_ & _ & _ & _ & Hq & _) |
        (Hlt & Hsum & b & _ & _ & Hq & _)]]];
    try (rewrite (table_ok_queues _ _ Hq); assumption); [assumption |].
  unfold table_ok. rewrite Hq. apply forallb_insert; [assumption |].
  destruct (scan_from_0 s) as (Hr & _).
  destruct (mk_ticket_fields (scan (Z.to_nat MAXQ) 0 s)
              (to_uint (noncectr s + NOFFSET)) Hr ltac:(lia)) as (_ & _ & Hn).
  cbn [slot_ok]. apply queue_ok_spec. cbn [ticket head count].
  rewrite Hn. unfold MAXELT. lia.
Qed.

Lemma table_ok_rejected qno s :
  table_ok s = true -> table_ok (snd (readref qno s)) = true.
Proof.
  intros Hok. rewrite (table_ok_queues _ _ (proj1 (readref_frame qno s))).
  assumption.
Qed.

Lemma table_ok_delete_queue qno s :
  table_ok s = true -> table_ok (snd (delete_queue qno s)) = true.
Proof.
  intros Hok. destruct (QE_ISERROR (fst (readref qno s))) eqn:Herr.
  - destruct (rejected_by_all qno s Herr) as (-> & _).
    apply table_ok_rejected, Hok.
  - destruct (readref_accepts qno s Herr) as (q & Hl & _).
    rewrite (delete_queue_live _ _ _ Hl). cbn [snd].
    apply table_ok_set_slot; auto.
Qed.

Lemma table_ok_put_on_queue qno n s :
  table_ok s = true -> table_ok (snd (put_on_queue qno n s)) = true.
Proof.
  intros Hok. destruct (QE_ISERROR (fst (readref qno s))) eqn:Herr.
  - destruct (rejected_by_all qno s Herr) as (_ & -> & _).
    apply table_ok_rejected, Hok.
  - destruct (readref_accepts qno s Herr) as (q & Hl & _).
    rewrite (put_on_queue_live _ _ _ _ Hl).
    destruct (Z.eqb_spec (count q) MAXELT) as [Hfull | Hroom]; cbn [snd].
    + assumption.
    + apply table_ok_set_slot; [assumption |].
      apply queue_ok_put; [apply Hl | assumption].
Qed.

Lemma table_ok_take_off_queue qno s :
  table_ok s = true -> table_ok (snd (take_off_queue qno s)) = true.
Proof.
  intros Hok. destruct (QE_ISERROR (fst (readref qno s))) eqn:Herr.
  - destruct (rejected_by_all qno s Herr) as (_ & _ & ->).
    apply table_ok_rejected, Hok.
  - destruct (readref_accepts qno s Herr) as (q & Hl & _).
    rewrite (take_off_queue_live _ _ _ Hl).
    destruct (Z.eqb_spec (count q) 0) as [Hempty | Hsome]; cbn [snd].
    + assumption.
    + apply table_ok_set_slot; [assumption |].
      apply queue_ok_take; [apply Hl | assumption].
Qed.

(** Closed comparisons and equations are settled by evaluation. *)
Ltac by_evaluation :=
  vm_compute; repeat split; first [reflexivity | discriminate].

(** * The claims *)

(** ** Minting advances the counter *)

(** C8. Every call of [qtktref] whose argument passes the first test
    ([index > MAXQ] is false) leaves [noncectr] one higher, in [unsigned]
    arithmetic, than it found it, and leaves the table alone. This holds
    whether the call returns a ticket or QE_INTINCON; it returns QE_INTINCON
    exactly when [noncectr + NOFFSET] does not fit 16 bits or is zero. *)
Theorem qtktref_advances_noncectr index s :
  0 <= index < 2 ^ 32 ->
  (index >? MAXQ) = false ->
  let r := qtktref index s in
  noncectr (snd r) = to_uint (noncectr s + 1) /\
  (0 <= noncectr s < 2 ^ 32 - 1 -> noncectr (snd r) = noncectr s + 1) /\
  queues (snd r) = queues s /\
  (fst r = to_uint QE_INTINCON <->
   ~ 0 < to_uint (noncectr s + NOFFSET) < 2 ^ 16).
Proof.
  intros Hu Hle r.
  assert (Hi : 0 <= index <= MAXQ).
  { destruct (Z.gtb_spec index MAXQ); [discriminate | lia]. }
  assert (Hn : noncectr (snd r) = to_uint (noncectr s + 1)).
  { unfold r. rewrite qtktref_in_range by assumption. cbv zeta.
    destruct (_ || _); reflexivity. }
  split; [assumption |]. split.
  { intros Hc. rewrite Hn. apply to_uint_small. lia. }
  split; [apply qtktref_queues |].
  unfold r. rewrite qtktref_in_range by assumption. cbv zeta.
  pose proof (to_uint_range (noncectr s + NOFFSET)) as Hsum.
  set (sum := to_uint (noncectr s + NOFFSET)) in *.
  destruct ((2 ^ 16 <=? sum) || (sum =? 0)) eqn:Hcond; cbn [fst].
  - rewrite orb_true_iff, Z.leb_le, Z.eqb_eq in Hcond.
    split; [lia | reflexivity].
  - rewrite orb_false_iff, Z.leb_gt, Z.eqb_neq in Hcond.
    destruct (mk_ticket_fields index sum Hi ltac:(lia)) as (Ht & _).
    change (to_uint QE_INTINCON) with 4294967288.
    split; lia.
Qed.

(** A rejected mint at counter 0xFAFE, where the generation field first
    overflows: the counter moves on to 0xFAFF. *)
Lemma qtktref_advances_noncectr_witness :
  fst (qtktref 0 (set_noncectr 0xFAFE init_state)) = to_uint QE_INTINCON /\
  noncectr (snd (qtktref 0 (set_noncectr 0xFAFE init_state))) = 0xFAFF.
Proof.
  destruct (qtktref_advances_noncectr 0 (set_noncectr 0xFAFE init_state))
    as (_ & Hstep & _ & Hfail).
  - lia.
  - reflexivity.
  - split.
    + apply Hfail. vm_compute. intros [_ H]. discriminate H.
    + rewrite Hstep; [reflexivity | cbn; lia].
Defined.

(** ** Validation of a ticket *)

(** C4. [readref] returns QE_BADTICKET exactly when the index the ticket
    decodes to is out of range, the slot there is empty, or the ticket stored
    there differs from the one presented. It returns QE_INTINCON exactly when
    the slot the ticket names holds that very ticket and its head is outside
    [0, MAXELT), its count outside [0, MAXELT], or the low 16 bits of the
    stored ticket are zero. It never writes [queues] or [noncectr]: a failing
    call changes [qe_errbuf] only, a successful one changes nothing. *)
Theorem readref_spec qno s :
  let index := ticket_index qno in
  let r := readref qno s in
  (fst r = QE_BADTICKET <->
   MAXQ <= index \/ slot s index = None \/
   exists q, slot s index = Some q /\ ticket q <> qno) /\
  (fst r = QE_INTINCON <->
   exists q, index < MAXQ /\ slot s index = Some q /\ ticket q = qno /\
             (head q < 0 \/ MAXELT <= head q \/ count q < 0 \/
              MAXELT < count q \/ ticket_nonce (ticket q) = 0)) /\
  queues (snd r) = queues s /\ noncectr (snd r) = noncectr s /\
  (QE_ISERROR (fst r) = false -> snd r = s).
Proof.
  intros index r.
  assert (Hbad : forall q : QUEUE, queue_ok q = false <->
            (head q < 0 \/ MAXELT <= head q \/ count q < 0 \/
             MAXELT < count q \/ ticket_nonce (ticket q) = 0)).
  { intros q. rewrite <- not_true_iff_false, queue_ok_spec. lia. }
  destruct (readref_frame qno s) as [Hq Hn]. fold r in Hq, Hn.
  pose proof (ticket_index_range qno) as Hrange. fold index in Hrange.
  pose proof (readref_cases qno s) as Hcases. cbv zeta in Hcases.
  fold index in Hcases. fold r in Hcases.
  destruct Hcases
    as [[Hge Hr] | [(Hlt & Hnone & Hr) | [(q & Hlt & Hs & Hne & Hr) |
        [(q & Hlt & Hs & Heq & Hnok & Hr) | (q & Hl & Hr)]]]].
  - repeat split; auto; rewrite Hr; try discriminate.
    + intros (q & ? & _). lia.
  - repeat split; auto; rewrite Hr; try discriminate.
    + intros (q & _ & ? & _). congruence.
  - repeat split; auto; rewrite Hr; try discriminate.
    + intros _. right; right. exists q. auto.
    + intros (q' & _ & Hs' & Heq' & _). congruence.
  - repeat split; auto; rewrite Hr; try discriminate.
    + intros [? | [? | (q' & Hs' & Hne')]]; exfalso;
        first [lia | congruence
              | rewrite Hs in Hs'; injection Hs' as <-; contradiction].
    + intros _. exists q. repeat split; auto. apply Hbad, Hnok.
  - destruct Hl as (Hlt & Hs & Heq & Hok). fold index in Hlt, Hs.
    rewrite Hr. cbn [fst snd].
    unfold QE_BADTICKET, QE_INTINCON. repeat split; auto; try lia.
    + intros [? | [? | (q' & Hs' & Hne')]]; exfalso;
        first [lia | congruence
              | rewrite Hs in Hs'; injection Hs' as <-; contradiction].
    + intros (q' & _ & Hs' & _ & Hbad').
      apply Hbad in Hbad'. rewrite Hs in Hs'. injection Hs' as <-. congruence.
Qed.

(** The ticket of a live queue is accepted and nothing is written; the
    ticket 0, whose index field is below IOFFSET, is rejected. *)
Lemma readref_spec_witness :
  snd (readref first_ticket one_queue) = one_queue /\
  fst (readref 0 one_queue) = QE_BADTICKET.
Proof.
  split.
  - destruct (readref_spec first_ticket one_queue) as (_ & _ & _ & _ & Hok).
    apply Hok. vm_compute. reflexivity.
  - destruct (readref_spec 0 one_queue) as (Hbad & _).
    apply Hbad. left. vm_compute. discriminate.
Defined.

(** ** Full and empty queues *)

(** C3. On a live queue that holds MAXELT elements [put_on_queue] returns
    QE_TOOFULL, the code this library gives a full queue, and on a live queue
    that holds none [take_off_queue] returns QE_EMPTY. Either call leaves
    [queues], and so the head, the count and the elements of the queue, and
    [noncectr] as they were. *)
Theorem capacity_boundary qno s q :
  live qno s q ->
  (count q = MAXELT ->
   forall n, let r := put_on_queue qno n s in
     fst r = QE_TOOFULL /\ queues (snd r) = queues s /\
     noncectr (snd r) = noncectr s /\
     slot (snd r) (ticket_index qno) = Some q) /\
  (count q = 0 ->
   let r := take_off_queue qno s in
     fst r = QE_EMPTY /\ queues (snd r) = queues s /\
     noncectr (snd r) = noncectr s /\
     slot (snd r) (ticket_index qno) = Some q).
Proof.
  intros Hl. split.
  - intros Hfull n. cbv zeta. rewrite (put_on_queue_live _ _ _ _ Hl).
    rewrite Hfull, Z.eqb_refl. cbn [fst snd ERRBUF queues noncectr].
    repeat split. apply Hl.
  - intros Hempty. cbv zeta. rewrite (take_off_queue_live _ _ _ Hl).
    rewrite Hempty, Z.eqb_refl. cbn [fst snd ERRBUF queues noncectr].
    repeat split. apply Hl.
Qed.

(** The first queue of a program, once filled with MAXELT elements and once
    just created. *)
Lemma capacity_boundary_witness :
  (fst (put_on_queue first_ticket 8 full_queue) = QE_TOOFULL /\
   queues (snd (put_on_queue first_ticket 8 full_queue)) = queues full_queue) /\
  (fst (take_off_queue first_ticket one_queue) = QE_EMPTY /\
   queues (snd (take_off_queue first_ticket one_queue)) = queues one_queue).
Proof.
  split.
  - assert (Hl : live first_ticket full_queue
                   {| ticket := first_ticket;
                      que := replicate (Z.to_nat MAXELT) 7;
                      head := 0; count := MAXELT |})
      by (repeat split; vm_compute; reflexivity).
    destruct (capacity_boundary _ _ _ Hl) as [Hput _].
    destruct (Hput eq_refl 8) as (Hr & Hq & _). split; assumption.
  - assert (Hl : live first_ticket one_queue
                   {| ticket := first_ticket;
                      que := replicate (Z.to_nat MAXELT) 5;
                      head := 0; count := 0 |})
      by (repeat split; vm_compute; reflexivity).
    destruct (capacity_boundary _ _ _ Hl) as [_ Htake].
    destruct (Htake eq_refl) as (Hr & Hq & _). split; assumption.
Defined.

(** ** The consistency invariant *)

(** C7. If every occupied slot of a state has its head in [0, MAXELT), its
    count in [0, MAXELT] and a stored ticket whose low 16 bits are not zero,
    then the same is true of the state each of [create_queue],
    [delete_queue], [put_on_queue] and [take_off_queue] leaves, whatever
    their arguments and whatever they return. *)
Theorem table_ok_preserved s :
  table_ok s = true ->
  (forall blk, table_ok (snd (create_queue blk s)) = true) /\
  (forall qno, table_ok (snd (delete_queue qno s)) = true) /\
  (forall qno n, table_ok (snd (put_on_queue qno n s)) = true) /\
  (forall qno, table_ok (snd (take_off_queue qno s)) = true).
Proof.
  intros Hok. repeat split; intros.
  - apply table_ok_create_queue, Hok.
  - apply table_ok_delete_queue, Hok.
  - apply table_ok_put_on_queue, Hok.
  - apply table_ok_take_off_queue, Hok.
Qed.

Lemma table_ok_preserved_witness :
  table_ok one_queue = true /\
  table_ok (snd (create_queue (Some fresh_block) one_queue)) = true /\
  table_ok (snd (delete_queue first_ticket one_queue)) = true /\
  table_ok (snd (put_on_queue first_ticket 11 one_queue)) = true /\
  table_ok (snd (take_off_queue first_ticket one_queue)) = true.
Proof.
  assert (Hok : table_ok one_queue = true) by (vm_compute; reflexivity).
  destruct (table_ok_preserved one_queue Hok) as (Hc & Hd & Hp & Ht).
  repeat split; auto.
Defined.

(** ** The slot a new queue gets *)

(** C6. In a table of MAXQ slots with an empty one, let [i] be the least
    index of an empty slot. [create_queue] writes no slot but [i]; it returns
    a ticket exactly when [malloc] gives it a block and [noncectr + NOFFSET]
    is a non-zero 16-bit value, and then slot [i] holds a new, empty queue
    that carries the returned ticket, which decodes to [i]. When it fails the
    table is as before. In a table whose MAXQ slots are all occupied it
    returns QE_TOOMANYQS and leaves the table and the counter as before. *)
Theorem create_queue_lowest_free blk s :
  table_shape s ->
  let r := create_queue blk s in
  (forall i, 0 <= i < MAXQ -> slot s i = None ->
     (forall j, 0 <= j < i -> slot s j <> None) ->
     (forall j, j <> i -> 0 <= j -> slot (snd r) j = slot s j) /\
     (QE_ISERROR (to_int (fst r)) = false <->
      blk <> None /\ 0 < to_uint (noncectr s + NOFFSET) < 2 ^ 16) /\
     (QE_ISERROR (to_int (fst r)) = false ->
      ticket_index (fst r) = i /\
      exists q, slot (snd r) i = Some q /\
                ticket q = fst r /\ head q = 0 /\ count q = 0) /\
     (QE_ISERROR (to_int (fst r)) = true -> queues (snd r) = queues s)) /\
  ((forall i, 0 <= i < MAXQ -> slot s i <> None) ->
   fst r = to_uint QE_TOOMANYQS /\ to_int (fst r) = QE_TOOMANYQS /\
   queues (snd r) = queues s /\ noncectr (snd r) = noncectr s).
Proof.
  intros Hshape r. split.
  - intros i Hi Hfree Hleast.
    pose proof (scan_least s i Hi Hfree Hleast) as Hscan.
    pose proof (create_queue_cases blk s) as Hcases. cbv zeta in Hcases.
    rewrite Hscan in Hcases. fold r in Hcases.
    set (sum := to_uint (noncectr s + NOFFSET)) in *.
    assert (Hsame : queues (snd r) = queues s ->
                    forall j, j <> i -> 0 <= j -> slot (snd r) j = slot s j).
    { intros Hq j _ _. unfold slot. rewrite Hq. reflexivity. }
    destruct Hcases
      as [[Hfull _] | [(_ & Hblk & Hr & Hq & _) | [(_ & Hblk & Hsum & Hr & Hq & _) |
          (_ & Hsum & b & Hblk & Hr & Hq & _)]]].
    + lia.
    + rewrite Hr. change (QE_ISERROR (to_int (to_uint QE_NOROOM))) with true.
      repeat split; auto; try discriminate. intros [? _]. contradiction.
    + rewrite Hr. change (QE_ISERROR (to_int (to_uint QE_INTINCON))) with true.
      repeat split; auto; try discriminate. intros [_ ?]. contradiction.
    + destruct (mk_ticket_fields i sum ltac:(lia) ltac:(lia)) as (Ht & Hidx & _).
      assert (Hne : QE_ISERROR (to_int (fst r)) = false).
      { rewrite Hr, to_int_small by assumption. apply Z.ltb_ge. lia. }
      rewrite Hne. repeat split; auto; try discriminate.
      * intros j Hj Hj0. unfold slot. rewrite Hq.
        rewrite list_lookup_insert_ne by lia. reflexivity.
      * rewrite Hblk. discriminate.
      * lia.
      * lia.
      * rewrite Hr. assumption.
      * eexists. split.
        -- unfold slot. rewrite Hq, list_lookup_insert_eq; [reflexivity |].
           rewrite Hshape. unfold MAXQ in *. lia.
        -- cbn [ticket head count]. auto.
  - intros Hocc. pose proof (scan_full s Hocc) as Hscan.
    pose proof (create_queue_cases blk s) as Hcases. cbv zeta in Hcases.
    rewrite Hscan in Hcases. fold r in Hcases.
    destruct Hcases as [[_ Hr] | [(? & _) | [(? & _) | (? & _)]]]; try lia.
    rewrite Hr. cbn [fst snd ERRBUF queues noncectr]. auto.
Qed.

Lemma table_full_slots s :
  table_shape s -> table_full s = true ->
  forall i, 0 <= i < MAXQ -> slot s i <> None.
Proof.
  unfold table_shape, table_full. intros Hshape Hfull i Hi.
  rewrite forallb_forall in Hfull.
  destruct (lookup_lt_is_Some_2 (queues s) (Z.to_nat i)) as [p Hp].
  { rewrite Hshape. unfold MAXQ in *. lia. }
  specialize (Hfull p). unfold slot. rewrite Hp.
  destruct p as [q |]; [discriminate |].
  assert (false = true); [| discriminate].
  apply Hfull. apply list_elem_of_In. eapply list_elem_of_lookup_2. eassumption.
Qed.

(** With slots 0 and 1 taken and slot 0 freed, the next queue gets slot 0;
    with every slot taken, [create_queue] returns QE_TOOMANYQS. *)
Lemma create_queue_lowest_free_witness :
  (ticket_index (fst (create_queue (Some fresh_block) slot0_freed)) = 0 /\
   exists q, slot (snd (create_queue (Some fresh_block) slot0_freed)) 0 = Some q /\
             count q = 0) /\
  (to_int (fst (create_queue (Some fresh_block) full_table)) = QE_TOOMANYQS /\
   queues (snd (create_queue (Some fresh_block) full_table)) = queues full_table).
Proof.
  split.
  - assert (Hshape : table_shape slot0_freed) by (vm_compute; reflexivity).
    destruct (create_queue_lowest_free (Some fresh_block) slot0_freed Hshape)
      as [Hfree _].
    destruct (Hfree 0) as (_ & _ & Hok & _).
    + unfold MAXQ. lia.
    + vm_compute. reflexivity.
    + intros j Hj. lia.
    + destruct Hok as (Hidx & q & Hs & _ & _ & Hc).
      * vm_compute. reflexivity.
      * split; [assumption |]. exists q. auto.
  - assert (Hshape : table_shape full_table) by (vm_compute; reflexivity).
    destruct (create_queue_lowest_free (Some fresh_block) full_table Hshape)
      as [_ Hfull].
    destruct Hfull as (_ & Hr & Hq & _).
    + apply table_full_slots; [assumption | vm_compute; reflexivity].
    + auto.
Defined.

(** ** Values and error codes share the return value *)

(** C9. [take_off_queue] returns the element it removes as its [int] result,
    the result that also carries the error codes. So whenever the oldest
    element of a live, non-empty queue is negative the successful call returns
    a value for which QE_ISERROR is true, while the element is gone from the
    queue. There are two runs of a program, one in which [take_off_queue]
    removes the element -3 and one in which it rejects a deleted ticket, that
    return the same value, QE_BADTICKET. *)
Theorem take_off_queue_value_looks_like_error :
  (forall qno s q,
     live qno s q -> count q <> 0 -> que_get q (head q) < 0 ->
     let r := take_off_queue qno s in
     fst r = que_get q (head q) /\ QE_ISERROR (fst r) = true /\
     exists q1, slot (snd r) (ticket_index qno) = Some q1 /\
                count q1 = count q - 1 /\
                head q1 = Z.rem (head q + 1) MAXELT) /\
  (exists ops1 ops2 qno,
     let s1 := snd (run ops1 init_state) in
     let s2 := snd (run ops2 init_state) in
     (exists q, live qno s1 q /\ count q = 1 /\
                slot (snd (take_off_queue qno s1)) (ticket_index qno)
                = Some {| ticket := ticket q; que := que q;
                          head := 1; count := 0 |}) /\
     QE_ISERROR (fst (readref qno s2)) = true /\
     snd (take_off_queue qno s2) = snd (readref qno s2) /\
     fst (take_off_queue qno s1) = QE_BADTICKET /\
     fst (take_off_queue qno s2) = QE_BADTICKET).
Proof.
  split.
  - intros qno s q Hl Hne Hneg. cbv zeta.
    rewrite (take_off_queue_live _ _ _ Hl).
    destruct (Z.eqb_spec (count q) 0) as [? | _]; [contradiction |].
    cbn [fst snd]. split; [reflexivity |]. split; [apply Z.ltb_lt, Hneg |].
    eexists. split.
    + apply slot_set_slot_eq. eapply slot_in_table. apply Hl.
    + cbn [count head]. auto.
  - exists [OpCreate (Some fresh_block); OpPut first_ticket (-3)],
           [OpCreate (Some fresh_block); OpDelete first_ticket],
           first_ticket.
    cbv zeta. split.
    + exists {| ticket := first_ticket;
                que := <[0%nat := -3]> (replicate (Z.to_nat MAXELT) 5);
                head := 0; count := 1 |}.
      repeat split; vm_compute; reflexivity.
    + repeat split; vm_compute; reflexivity.
Qed.

Lemma take_off_queue_value_looks_like_error_witness :
  fst (take_off_queue first_ticket holds_minus3) = -3 /\
  QE_ISERROR (fst (take_off_queue first_ticket holds_minus3)) = true.
Proof.
  destruct take_off_queue_value_looks_like_error as [Hgen _].
  assert (Hl : live first_ticket holds_minus3
                 {| ticket := first_ticket;
                    que := <[0%nat := -3]> (replicate (Z.to_nat MAXELT) 5);
                    head := 0; count := 1 |})
    by (repeat split; vm_compute; reflexivity).
  destruct (Hgen _ _ _ Hl) as (Hr & Herr & _).
  - discriminate.
  - vm_compute. reflexivity.
  - split; [rewrite Hr; vm_compute; reflexivity | assumption].
Defined.

(** ** The ring buffer *)

Lemma rem_MAXELT z : 0 <= z -> Z.rem z MAXELT = z mod MAXELT.
Proof. intros Hz. apply Z.rem_mod_nonneg; [assumption | reflexivity]. Qed.

Lemma ring_positions_differ h k c :
  0 <= h -> 0 <= k < c -> c < MAXELT ->
  Z.to_nat (Z.rem (h + c) MAXELT) <> Z.to_nat (Z.rem (h + k) MAXELT).
Proof.
  intros Hh Hk Hc. rewrite !rem_MAXELT by lia. unfold MAXELT in *.
  pose proof (Z.mod_pos_bound (h + c) 1024 ltac:(lia)).
  pose proof (Z.mod_pos_bound (h + k) 1024 ltac:(lia)).
  pose proof (Z.div_mod (h + c) 1024 ltac:(lia)).
  pose proof (Z.div_mod (h + k) 1024 ltac:(lia)).
  lia.
Qed.

(** [put_on_queue] appends to the contents. *)
Lemma contents_put q n :
  queue_ok q = true -> queue_shape q -> count q <> MAXELT ->
  contents {| ticket := ticket q;
              que := que_set (Z.rem (head q + count q) MAXELT) n (que q);
              head := head q;
              count := count q + 1 |}
  = contents q ++ [n].
Proof.
  rewrite queue_ok_spec. intros (Hh & Hc & _) Hshape Hroom.
  unfold contents. cbn [head count].
  replace (Z.to_nat (count q + 1)) with (S (Z.to_nat (count q))) by lia.
  rewrite seq_S, map_app. f_equal.
  - apply map_ext_in. intros k Hk. apply in_seq in Hk.
    unfold que_get, que_set. cbn [que].
    rewrite list_lookup_insert_ne; [reflexivity |].
    apply ring_positions_differ; lia.
  - cbn [map Nat.add]. rewrite Z2Nat.id by lia.
    unfold que_get, que_set. cbn [que].
    rewrite list_lookup_insert_eq; [reflexivity |].
    rewrite Hshape. pose proof (rem_MAXELT_range (head q + count q)).
    unfold MAXELT in *. lia.
Qed.

(** [take_off_queue] returns the first of the contents and leaves the rest. *)
Lemma contents_take q :
  queue_ok q = true -> count q <> 0 ->
  contents q =
    que_get q (head q)
    :: contents {| ticket := ticket q;
                   que := que q;
                   head := Z.rem (head q + 1) MAXELT;
                   count := count q - 1 |}.
Proof.
  rewrite queue_ok_spec. intros (Hh & Hc & _) Hne.
  unfold contents. cbn [head count].
  replace (Z.to_nat (count q)) with (S (Z.to_nat (count q - 1))) by lia.
  cbn [seq map]. f_equal.
  - f_equal. change (Z.of_nat 0) with 0. rewrite Z.add_0_r.
    rewrite rem_MAXELT by lia. apply Z.mod_small. lia.
  - rewrite <- seq_shift, map_map. apply map_ext. intros k.
    unfold que_get. cbn [que].
    pose proof (rem_MAXELT_range (head q + 1)).
    replace (Z.rem (Z.rem (head q + 1) MAXELT + Z.of_nat k) MAXELT)
      with (Z.rem (head q + Z.of_nat (S k)) MAXELT); [reflexivity |].
    rewrite !rem_MAXELT by lia.
    rewrite Z.add_mod_idemp_l by (unfold MAXELT; lia).
    apply (f_equal2 Z.modulo); [lia | reflexivity].
Qed.

Lemma run_cons o ops s :
  run (o :: ops) s =
    (fst (step o s) :: fst (run ops (snd (step o s))),
     snd (run ops (snd (step o s)))).
Proof.
  cbn [run]. destruct (step o s) as [r s1]. cbn [fst snd].
  destruct (run ops s1) as [rs s2]. reflexivity.
Qed.

(** A run of [put_on_queue] that fits the queue. *)
Lemma put_all_spec vs : forall qno s q,
  live qno s q -> queue_shape q ->
  count q + Z.of_nat (length vs) <= MAXELT ->
  exists q1,
    fst (put_all qno vs s) = repeat QE_NONE (length vs) /\
    live qno (snd (put_all qno vs s)) q1 /\
    queue_shape q1 /\
    contents q1 = contents q ++ vs /\
    head q1 = head q /\
    count q1 = count q + Z.of_nat (length vs).
Proof.
  unfold put_all.
  induction vs as [| v vs IH]; intros qno s q Hl Hshape Hfit.
  - exists q. cbn [map run fst snd length repeat]. rewrite app_nil_r.
    repeat split; try apply Hl; auto. lia.
  - cbn [length] in Hfit. cbn [map]. rewrite run_cons. cbn [step fst snd].
    rewrite (put_on_queue_live _ _ _ _ Hl).
    pose proof Hl as (_ & _ & Ht & Hok).
    pose proof Hok as Hok'. apply queue_ok_spec in Hok' as (Hh & Hc & _).
    destruct (Z.eqb_spec (count q) MAXELT) as [? | Hroom]; [lia |].
    cbn [fst snd].
    set (q' := {| ticket := ticket q;
                  que := que_set (Z.rem (head q + count q) MAXELT) v (que q);
                  head := head q; count := count q + 1 |}).
    assert (Hl' : live qno (set_slot (ticket_index qno) (Some q') s) q').
    { apply (live_set_slot _ _ _ _ Hl); [exact Ht |].
      apply queue_ok_put; assumption. }
    assert (Hshape' : queue_shape q').
    { unfold queue_shape, q', que_set. cbn [que]. rewrite length_insert.
      exact Hshape. }
    destruct (IH qno _ q' Hl' Hshape') as (q1 & Hr & Hl1 & Hs1 & Hc1 & Hh1 & Hn1).
    { unfold q'. cbn [count]. lia. }
    exists q1. cbn [length repeat]. rewrite Hr.
    repeat split; try apply Hl1; auto.
    + rewrite Hc1. unfold q'. rewrite contents_put by assumption.
      rewrite <- app_assoc. reflexivity.
    + rewrite Hn1. unfold q'. cbn [count]. lia.
Qed.

(** A run of [take_off_queue] no longer than the queue. *)
Lemma take_n_spec n : forall qno s q,
  live qno s q -> Z.of_nat n <= count q ->
  exists q1,
    fst (take_n qno n s) = take n (contents q) /\
    live qno (snd (take_n qno n s)) q1 /\
    contents q1 = drop n (contents q) /\
    head q1 = (head q + Z.of_nat n) mod MAXELT /\
    count q1 = count q - Z.of_nat n.
Proof.
  unfold take_n.
  induction n as [| n IH]; intros qno s q Hl Hn.
  - exists q. cbn [repeat run fst snd take drop].
    pose proof Hl as (_ & _ & _ & Hok). apply queue_ok_spec in Hok.
    repeat split; try apply Hl; auto.
    + rewrite Z.add_0_r, Z.mod_small; [reflexivity | lia].
    + lia.
  - cbn [repeat]. rewrite run_cons. cbn [step fst snd].
    rewrite (take_off_queue_live _ _ _ Hl).
    pose proof Hl as (_ & _ & Ht & Hok).
    pose proof Hok as Hok'. apply queue_ok_spec in Hok' as (Hh & Hc & _).
    destruct (Z.eqb_spec (count q) 0) as [? | Hsome]; [lia |].
    cbn [fst snd].
    set (q' := {| ticket := ticket q; que := que q;
                  head := Z.rem (head q + 1) MAXELT; count := count q - 1 |}).
    assert (Hl' : live qno (set_slot (ticket_index qno) (Some q') s) q').
    { apply (live_set_slot _ _ _ _ Hl); [exact Ht |].
      apply queue_ok_take; assumption. }
    destruct (IH qno _ q' Hl') as (q1 & Hr & Hl1 & Hc1 & Hh1 & Hn1).
    { unfold q'. cbn [count]. lia. }
    exists q1. rewrite Hr, (contents_take q) by assumption. fold q'.
    cbn [take drop]. repeat split; try apply Hl1; auto.
    + rewrite Hh1. unfold q'. cbn [head].
      rewrite rem_MAXELT by lia.
      rewrite Z.add_mod_idemp_l by (unfold MAXELT; lia).
      apply (f_equal2 Z.modulo); [lia | reflexivity].
    + rewrite Hn1. unfold q'. cbn [count]. lia.
Qed.

Lemma map_seq_lookup {A} (f : nat -> A) n : forall start k v,
  map f (seq start n) !! k = Some v -> v = f (start + k)%nat.
Proof.
  induction n as [| n IH]; intros start k v H; [discriminate |].
  cbn [seq map] in H. destruct k as [| k]; cbn in H.
  - injection H as <-. f_equal. lia.
  - rewrite (IH _ _ _ H). f_equal. lia.
Qed.

Lemma contents_lookup q k v :
  contents q !! k = Some v ->
  v = que_get q (Z.rem (head q + Z.of_nat k) MAXELT).
Proof. unfold contents. intros H. apply map_seq_lookup in H. exact H. Qed.

Lemma contents_empty q : count q = 0 -> contents q = [].
Proof. unfold contents. intros ->. reflexivity. Qed.

(** C2. Take a live queue that is empty and [n] values, 0 < n <= MAXELT.
    The [n] calls of [put_on_queue] all return QE_NONE, and the [n] calls of
    [take_off_queue] that follow return the values in the order they were
    put. After the puts the head is where it was, the count is [n] and the
    k-th value sits at position (head + k) mod MAXELT; after the takes the
    queue is empty again with its head advanced by [n] modulo MAXELT. A
    single put on a live queue with room writes position
    (head + count) mod MAXELT and adds one to the count; a single take on a
    live queue with elements returns the element at head, advances head to
    (head + 1) mod MAXELT and takes one from the count. *)
Theorem fifo_law qno s q vs :
  live qno s q -> queue_shape q -> count q = 0 ->
  (0 < length vs)%nat -> Z.of_nat (length vs) <= MAXELT ->
  let r1 := put_all qno vs s in
  let r2 := take_n qno (length vs) (snd r1) in
  fst r1 = repeat QE_NONE (length vs) /\
  fst r2 = vs /\
  (exists q1, live qno (snd r1) q1 /\
     head q1 = head q /\ count q1 = Z.of_nat (length vs) /\
     forall k v, vs !! k = Some v ->
                 que_get q1 ((head q + Z.of_nat k) mod MAXELT) = v) /\
  (exists q2, live qno (snd r2) q2 /\
     head q2 = (head q + Z.of_nat (length vs)) mod MAXELT /\ count q2 = 0) /\
  (forall s' q' n, live qno s' q' -> count q' <> MAXELT ->
     put_on_queue qno n s' =
       (QE_NONE,
        set_slot (ticket_index qno)
          (Some {| ticket := ticket q';
                   que := <[Z.to_nat ((head q' + count q') mod MAXELT) := n]>
                            (que q');
                   head := head q';
                   count := count q' + 1 |}) s')) /\
  (forall s' q', live qno s' q' -> count q' <> 0 ->
     take_off_queue qno s' =
       (que_get q' (head q'),
        set_slot (ticket_index qno)
          (Some {| ticket := ticket q';
                   que := que q';
                   head := (head q' + 1) mod MAXELT;
                   count := count q' - 1 |}) s')).
Proof.
  intros Hl Hshape Hempty Hpos Hfit r1 r2.
  destruct (put_all_spec vs qno s q Hl Hshape ltac:(lia))
    as (q1 & Hr1 & Hl1 & Hs1 & Hc1 & Hh1 & Hn1).
  fold r1 in Hr1, Hl1.
  rewrite (contents_empty q Hempty) in Hc1. cbn [app] in Hc1.
  destruct (take_n_spec (length vs) qno (snd r1) q1 Hl1 ltac:(lia))
    as (q2 & Hr2 & Hl2 & _ & Hh2 & Hn2).
  fold r2 in Hr2, Hl2.
  split; [exact Hr1 |]. split.
  { rewrite Hr2, Hc1. apply firstn_all. }
  split.
  { exists q1. repeat split; try apply Hl1; try lia.
    intros k v Hk. rewrite <- Hc1 in Hk. apply contents_lookup in Hk.
    pose proof Hl as (_ & _ & _ & Hok). apply queue_ok_spec in Hok.
    rewrite Hh1, rem_MAXELT in Hk by lia. auto. }
  split.
  { exists q2. repeat split; try apply Hl2; try lia.
    rewrite Hh2, Hh1. reflexivity. }
  split.
  - intros s' q' n Hl' Hroom. rewrite (put_on_queue_live _ _ _ _ Hl').
    pose proof Hl' as (_ & _ & _ & Hok). apply queue_ok_spec in Hok.
    destruct (Z.eqb_spec (count q') MAXELT) as [? | _]; [contradiction |].
    unfold que_set. rewrite rem_MAXELT by lia. reflexivity.
  - intros s' q' Hl' Hsome. rewrite (take_off_queue_live _ _ _ Hl').
    pose proof Hl' as (_ & _ & _ & Hok). apply queue_ok_spec in Hok.
    destruct (Z.eqb_spec (count q') 0) as [? | _]; [contradiction |].
    rewrite rem_MAXELT by lia. reflexivity.
Qed.

(** The first scenario of the specification: 11, 12 and 13 put on a new
    queue come off as 11, 12, 13. *)
Lemma fifo_law_witness :
  fst (put_all first_ticket [11; 12; 13] one_queue)
  = [QE_NONE; QE_NONE; QE_NONE] /\
  fst (take_n first_ticket 3
         (snd (put_all first_ticket [11; 12; 13] one_queue)))
  = [11; 12; 13].
Proof.
  assert (Hl : live first_ticket one_queue
                 {| ticket := first_ticket;
                    que := replicate (Z.to_nat MAXELT) 5;
                    head := 0; count := 0 |})
    by (repeat split; vm_compute; reflexivity).
  destruct (fifo_law first_ticket one_queue _ [11; 12; 13] Hl)
    as (Hputs & Htakes & _).
  - vm_compute. reflexivity.
  - reflexivity.
  - cbn. lia.
  - cbn. unfold MAXELT. lia.
  - split; assumption.
Defined.

(** ** Invariants of the reachable states *)

Lemma tickets_indexed_queues s s' :
  queues s' = queues s -> tickets_indexed s -> tickets_indexed s'.
Proof. unfold tickets_indexed. intros ->. auto. Qed.

Lemma tickets_indexed_set_slot i p s :
  0 <= i ->
  (forall q, p = Some q -> ticket_index (ticket q) = i) ->
  tickets_indexed s -> tickets_indexed (set_slot i p s).
Proof.
  intros Hi Hp Hind j q. unfold set_slot. cbn [queues].
  destruct (Nat.eq_dec (Z.to_nat i) j) as [<- | Hne].
  - intros Hl. apply list_lookup_insert_Some in Hl as [(_ & Heq & _) | (? & _)];
      [| contradiction].
    rewrite (Hp q Heq). lia.
  - rewrite list_lookup_insert_ne by assumption. apply Hind.
Qed.

Lemma table_shape_queues s s' :
  queues s' = queues s -> table_shape s -> table_shape s'.
Proof. unfold table_shape. intros ->. auto. Qed.

Lemma shape_indexed_create_queue blk s :
  table_shape s /\ tickets_indexed s ->
  table_shape (snd (create_queue blk s)) /\
  tickets_indexed (snd (create_queue blk s)).
Proof.
  intros [Hshape Hind].
  destruct (scan_from_0 s) as (Hcur & _).
  destruct (create_queue_cases blk s)
    as [[_ ->] | [(_ & _ & _ & Hq & _) | [(_ & _ & _ & _ & Hq & _) |
        (Hlt & Hsum & b & _ & _ & Hq & _)]]];
    try (split; [eapply table_shape_queues | eapply tickets_indexed_queues];
         eassumption); [split; assumption |].
  set (cur := scan (Z.to_nat MAXQ) 0 s) in *.
  set (sum := to_uint (noncectr s + NOFFSET)) in *.
  set (q := {| ticket := mk_ticket cur sum; que := que b;
               head := 0; count := 0 |}) in *.
  split.
  - unfold table_shape. rewrite Hq, length_insert. exact Hshape.
  - apply (tickets_indexed_queues (set_slot cur (Some q) s)); [exact Hq |].
    apply tickets_indexed_set_slot; [lia | | exact Hind].
    intros q' [= <-]. unfold q. cbn [ticket].
    apply (mk_ticket_fields cur sum); lia.
Qed.

Lemma shape_indexed_rejected qno s :
  table_shape s /\ tickets_indexed s ->
  table_shape (snd (readref qno s)) /\ tickets_indexed (snd (readref qno s)).
Proof.
  intros [Hshape Hind]. destruct (readref_frame qno s) as [Hq _].
  split; [eapply table_shape_queues | eapply tickets_indexed_queues];
    eassumption.
Qed.

(** Writing slot [ticket_index qno] of a live ticket [qno] with a queue that
    keeps the ticket, or with NULL. *)
Lemma shape_indexed_update qno s q p :
  live qno s q ->
  (forall q1, p = Some q1 -> ticket q1 = qno) ->
  table_shape s /\ tickets_indexed s ->
  table_shape (set_slot (ticket_index qno) p s) /\
  tickets_indexed (set_slot (ticket_index qno) p s).
Proof.
  intros Hl Hp [Hshape Hind]. split.
  - apply table_shape_set_slot, Hshape.
  - apply tickets_indexed_set_slot; [| | exact Hind].
    + apply (live_index_range _ _ _ Hl).
    + intros q1 Hq1. rewrite (Hp q1 Hq1). reflexivity.
Qed.

Lemma shape_indexed_step o s :
  table_shape s /\ tickets_indexed s ->
  table_shape (snd (step o s)) /\ tickets_indexed (snd (step o s)).
Proof.
  intros Hinv. destruct o as [blk | qno | qno n | qno]; cbn [step].
  - apply shape_indexed_create_queue, Hinv.
  - destruct (QE_ISERROR (fst (readref qno s))) eqn:Herr.
    + destruct (rejected_by_all qno s Herr) as (-> & _).
      apply shape_indexed_rejected, Hinv.
    + destruct (readref_accepts qno s Herr) as (q & Hl & _).
      rewrite (delete_queue_live _ _ _ Hl). cbn [snd].
      apply (shape_indexed_update _ _ _ _ Hl); [discriminate | exact Hinv].
  - destruct (QE_ISERROR (fst (readref qno s))) eqn:Herr.
    + destruct (rejected_by_all qno s Herr) as (_ & -> & _).
      apply shape_indexed_rejected, Hinv.
    + destruct (readref_accepts qno s Herr) as (q & Hl & _).
      rewrite (put_on_queue_live _ _ _ _ Hl).
      destruct (count q =? MAXELT); cbn [snd]; [exact Hinv |].
      apply (shape_indexed_update _ _ _ _ Hl); [| exact Hinv].
      intros q1 [= <-]. apply Hl.
  - destruct (QE_ISERROR (fst (readref qno s))) eqn:Herr.
    + destruct (rejected_by_all qno s Herr) as (_ & _ & ->).
      apply shape_indexed_rejected, Hinv.
    + destruct (readref_accepts qno s Herr) as (q & Hl & _).
      rewrite (take_off_queue_live _ _ _ Hl).
      destruct (count q =? 0); cbn [snd]; [exact Hinv |].
      apply (shape_indexed_update _ _ _ _ Hl); [| exact Hinv].
      intros q1 [= <-]. apply Hl.
Qed.

Lemma shape_indexed_run ops : forall s,
  table_shape s /\ tickets_indexed s ->
  table_shape (snd (run ops s)) /\ tickets_indexed (snd (run ops s)).
Proof.
  induction ops as [| o ops IH]; intros s Hinv; [exact Hinv |].
  rewrite run_cons. cbn [snd]. apply IH, shape_indexed_step, Hinv.
Qed.

Lemma shape_indexed_init : table_shape init_state /\ tickets_indexed init_state.
Proof.
  split; [reflexivity |]. intros i q Hl.
  unfold init_state in Hl. cbn [queues] in Hl.
  apply lookup_replicate in Hl as [Hl _]. discriminate.
Qed.

Lemma table_ok_run ops : forall s,
  table_ok s = true -> table_ok (snd (run ops s)) = true.
Proof.
  induction ops as [| o ops IH]; intros s Hok; [exact Hok |].
  rewrite run_cons. cbn [snd]. apply IH.
  destruct o; cbn [step].
  - apply table_ok_create_queue, Hok.
  - apply table_ok_delete_queue, Hok.
  - apply table_ok_put_on_queue, Hok.
  - apply table_ok_take_off_queue, Hok.
Qed.

(** ** Tickets of live queues are distinct *)

(** C5. After any sequence of calls from the initial state, in particular
    any sequence of [create_queue] and [delete_queue] calls, the tickets
    stored in two distinct occupied slots are distinct: each decodes to the
    index of its own slot, so the two never agree on both the index and the
    generation field. *)
Theorem live_tickets_distinct ops i j qi qj :
  let s := snd (run ops init_state) in
  i <> j ->
  queues s !! i = Some (Some qi) ->
  queues s !! j = Some (Some qj) ->
  ticket qi <> ticket qj /\
  ticket_index (ticket qi) = Z.of_nat i /\
  ticket_index (ticket qj) = Z.of_nat j /\
  ~ (ticket_index (ticket qi) = ticket_index (ticket qj) /\
     ticket_nonce (ticket qi) = ticket_nonce (ticket qj)).
Proof.
  intros s Hne Hi Hj.
  destruct (shape_indexed_run ops init_state shape_indexed_init) as [_ Hind].
  pose proof (Hind i qi Hi) as Hti. pose proof (Hind j qj Hj) as Htj.
  repeat split; auto.
  - intros Heq. rewrite Heq in Hti. lia.
  - intros [Heq _]. lia.
Qed.

(** Three queues created and the middle one deleted: slots 0 and 2 hold
    different tickets. *)
Lemma live_tickets_distinct_witness :
  exists q0 q2,
    queues two_of_three !! 0%nat = Some (Some q0) /\
    queues two_of_three !! 2%nat = Some (Some q2) /\
    ticket q0 <> ticket q2.
Proof.
  exists {| ticket := first_ticket; que := que fresh_block;
            head := 0; count := 0 |},
         {| ticket := 0x12230505; que := que fresh_block;
            head := 0; count := 0 |}.
  assert (H0 : queues two_of_three !! 0%nat
               = Some (Some {| ticket := first_ticket; que := que fresh_block;
                               head := 0; count := 0 |}))
    by (vm_compute; reflexivity).
  assert (H2 : queues two_of_three !! 2%nat
               = Some (Some {| ticket := 0x12230505; que := que fresh_block;
                               head := 0; count := 0 |}))
    by (vm_compute; reflexivity).
  split; [exact H0 |]. split; [exact H2 |].
  apply (live_tickets_distinct
           [OpCreate (Some fresh_block); OpCreate (Some fresh_block);
            OpCreate (Some fresh_block); OpDelete 0x12220504]
           0%nat 2%nat _ _ ltac:(lia) H0 H2).
Defined.

(** ** The counter along a sequence of calls *)

Lemma noncectr_ticket_ops qno s :
  noncectr (snd (delete_queue qno s)) = noncectr s /\
  (forall n, noncectr (snd (put_on_queue qno n s)) = noncectr s) /\
  noncectr (snd (take_off_queue qno s)) = noncectr s.
Proof.
  destruct (QE_ISERROR (fst (readref qno s))) eqn:Herr.
  - destruct (rejected_by_all qno s Herr) as (-> & Hp & ->).
    destruct (readref_frame qno s) as [_ Hn].
    repeat split; auto. intros n. rewrite Hp. exact Hn.
  - destruct (readref_accepts qno s Herr) as (q & Hl & _).
    rewrite (delete_queue_live _ _ _ Hl), (take_off_queue_live _ _ _ Hl).
    repeat split.
    + intros n. rewrite (put_on_queue_live _ _ _ _ Hl).
      destruct (count q =? MAXELT); reflexivity.
    + destruct (count q =? 0); reflexivity.
Qed.

(** What a [create_queue] call does to the counter, and what it returns,
    when [noncectr + NOFFSET] does not wrap around 2^32. *)
Lemma create_queue_counter blk s :
  0 <= noncectr s -> noncectr s + NOFFSET < 2 ^ 32 ->
  let r := create_queue blk s in
  let sum := noncectr s + NOFFSET in
  (QE_ISERROR (to_int (fst r)) = true /\ queues (snd r) = queues s /\
   (noncectr (snd r) = noncectr s \/
    noncectr (snd r) = noncectr s + 1 /\ fst r = to_uint QE_INTINCON /\
    ~ 0 < sum < 2 ^ 16)) \/
  (QE_ISERROR (to_int (fst r)) = false /\ 0 < sum < 2 ^ 16 /\
   ticket_nonce (fst r) = sum /\ noncectr (snd r) = noncectr s + 1).
Proof.
  intros Hc Hs r sum.
  assert (Hsum : to_uint (noncectr s + NOFFSET) = sum)
    by (apply to_uint_small; unfold sum, NOFFSET in *; lia).
  assert (Hinc : to_uint (noncectr s + 1) = noncectr s + 1)
    by (apply to_uint_small; unfold NOFFSET in Hs; lia).
  destruct (scan_from_0 s) as (Hcur & _).
  pose proof (create_queue_cases blk s) as Hcases. cbv zeta in Hcases.
  fold r in Hcases. rewrite Hsum, Hinc in Hcases.
  destruct Hcases
    as [[_ Hr] | [(_ & _ & Hr & Hq & Hn) | [(_ & _ & Hbad & Hr & Hq & Hn) |
        (Hlt & Hgood & b & _ & Hr & _ & Hn)]]].
  - left. rewrite Hr. cbn [fst snd ERRBUF queues noncectr]. auto.
  - left. rewrite Hr. auto.
  - left. rewrite Hr. auto 6.
  - right.
    destruct (mk_ticket_fields (scan (Z.to_nat MAXQ) 0 s) sum Hcur ltac:(lia))
      as (Ht & _ & Hnonce).
    rewrite Hr. repeat split; try lia; auto.
    rewrite to_int_small by assumption. apply Z.ltb_ge. lia.
Qed.

Lemma ticket_nonce_range t : 0 <= ticket_nonce t < 2 ^ 16.
Proof.
  unfold ticket_nonce. rewrite land_low16. apply Z.mod_pos_bound. lia.
Qed.

Lemma issued_cons o ops r rs :
  issued (o :: ops) (r :: rs) = issued [o] [r] ++ issued ops rs.
Proof.
  destruct o; cbn [issued]; try reflexivity.
  destruct (QE_ISERROR (to_int r)); reflexivity.
Qed.

Lemma creates_cons o ops : creates (o :: ops) = (creates [o] + creates ops)%nat.
Proof. destruct o; reflexivity. Qed.

(** One call, when [noncectr + NOFFSET] does not wrap around 2^32: either no
    ticket is issued, and the counter stays or, in a [create_queue] whose
    mint fails, moves on by one; or a ticket is issued that carries
    [noncectr + NOFFSET], and the counter moves on by one. *)
Lemma step_counter o s :
  0 <= noncectr s ->
  (creates [o] = 1%nat -> noncectr s + NOFFSET < 2 ^ 32) ->
  (issued [o] [fst (step o s)] = [] /\
   (noncectr (snd (step o s)) = noncectr s \/
    creates [o] = 1%nat /\ noncectr (snd (step o s)) = noncectr s + 1 /\
    ~ 0 < noncectr s + NOFFSET < 2 ^ 16)) \/
  (issued [o] [fst (step o s)] = [fst (step o s)] /\
   creates [o] = 1%nat /\
   0 < noncectr s + NOFFSET < 2 ^ 16 /\
   ticket_nonce (fst (step o s)) = noncectr s + NOFFSET /\
   noncectr (snd (step o s)) = noncectr s + 1).
Proof.
  intros Hc Hs.
  destruct (noncectr_ticket_ops
              match o with OpDelete q | OpPut q _ | OpTake q => q | _ => 0 end
              s) as (Hd & Hp & Ht).
  destruct o as [blk | qno | qno n | qno].
  - change (step (OpCreate blk) s) with (create_queue blk s).
    pose proof (create_queue_counter blk s Hc (Hs eq_refl)) as Hcc.
    cbv zeta in Hcc.
    destruct Hcc as [(Herr & _ & [Hn | (Hn & _ & Hbad)]) |
                     (Hok & Hsum & Hnonce & Hn)].
    + left. cbn [issued]. rewrite Herr. auto.
    + left. cbn [issued]. rewrite Herr. split; [reflexivity |].
      right. repeat split; auto.
    + right. cbn [issued]. rewrite Hok. repeat split; auto; lia.
  - left. split; [reflexivity |]. left. exact Hd.
  - left. split; [reflexivity |]. left. exact (Hp n).
  - left. split; [reflexivity |]. left. exact Ht.
Qed.

(** Before the generation field overflows: the tickets a sequence of calls
    is given carry the counter values at which they were minted, offset by
    NOFFSET, in increasing order. *)
Lemma issued_before_overflow ops : forall s,
  0 <= noncectr s ->
  noncectr s + NOFFSET + Z.of_nat (creates ops) <= 2 ^ 16 ->
  noncectr s <= noncectr (snd (run ops s))
    <= noncectr s + Z.of_nat (creates ops) /\
  Forall (fun t => noncectr s + NOFFSET <= ticket_nonce t
                   < noncectr (snd (run ops s)) + NOFFSET)
         (issued ops (fst (run ops s))) /\
  NoDup (map ticket_nonce (issued ops (fst (run ops s)))).
Proof.
  induction ops as [| o ops IH]; intros s Hc Hb.
  - cbn [run creates issued fst snd map]. repeat split; try lia; constructor.
  - rewrite run_cons. cbn [fst snd]. rewrite issued_cons.
    rewrite creates_cons, Nat2Z.inj_add in *.
    pose proof (step_counter o s Hc ltac:(lia)) as Hstep.
    set (s1 := snd (step o s)) in *. set (r := fst (step o s)) in *.
    clearbody s1 r.
    destruct Hstep
      as [(His & [Hn | (Hcr & Hn & _)]) | (His & Hcr & Hsum & Hnonce & Hn)];
      rewrite His;
      destruct (IH s1 ltac:(lia) ltac:(lia)) as (IH1 & IH2 & IH3).
    + cbn [app]. split; [lia |]. split; [| exact IH3].
      eapply Forall_impl; [exact IH2 |]. cbv beta. intros t Ht. lia.
    + cbn [app]. split; [lia |]. split; [| exact IH3].
      eapply Forall_impl; [exact IH2 |]. cbv beta. intros t Ht. lia.
    + cbn [app map]. split; [lia |]. split.
      * constructor; [lia |].
        eapply Forall_impl; [exact IH2 |]. cbv beta. intros t Ht. lia.
      * apply NoDup_cons. split; [| exact IH3].
        intros Hin. apply list_elem_of_In, in_map_iff in Hin as (t & Heq & Hin).
        rewrite Forall_forall in IH2. apply list_elem_of_In in Hin.
        specialize (IH2 t Hin). lia.
Qed.

(** ** Once the generation field has overflowed *)

Lemma qtktref_overflow index s :
  0 <= index <= MAXQ -> 0 <= noncectr s ->
  2 ^ 16 <= noncectr s + NOFFSET < 2 ^ 32 ->
  Z.land (to_uint (noncectr s + NOFFSET)) 0xffff
    <> to_uint (noncectr s + NOFFSET) /\
  fst (qtktref index s) = to_uint QE_INTINCON /\
  noncectr (snd (qtktref index s)) = noncectr s + 1 /\
  queues (snd (qtktref index s)) = queues s.
Proof.
  intros Hi Hc Hs.
  assert (Hsum : to_uint (noncectr s + NOFFSET) = noncectr s + NOFFSET)
    by (apply to_uint_small; lia).
  assert (Hinc : to_uint (noncectr s + 1) = noncectr s + 1)
    by (apply to_uint_small; unfold NOFFSET in Hs; lia).
  split.
  { rewrite Hsum, land_low16.
    pose proof (Z.mod_pos_bound (noncectr s + NOFFSET) (2 ^ 16)). lia. }
  rewrite qtktref_in_range by assumption. cbv zeta. rewrite Hsum, Hinc.
  destruct (Z.leb_spec (2 ^ 16) (noncectr s + NOFFSET)) as [_ | ?]; [| lia].
  cbn [orb fst snd ERRBUF set_noncectr queues noncectr]. auto.
Qed.

Lemma free_slot_scan s :
  (exists i, 0 <= i < MAXQ /\ slot s i = None) ->
  scan (Z.to_nat MAXQ) 0 s < MAXQ.
Proof.
  intros (i & Hi & Hfree). destruct (scan_from_0 s) as (Hr & Hocc & _).
  destruct (Z.eq_dec (scan (Z.to_nat MAXQ) 0 s) MAXQ) as [Heq | ?]; [| lia].
  exfalso. apply (Hocc i); [lia | assumption].
Qed.

Lemma create_queue_overflow blk s :
  0 <= noncectr s -> 2 ^ 16 <= noncectr s + NOFFSET < 2 ^ 32 ->
  let r := create_queue blk s in
  queues (snd r) = queues s /\
  ((exists i, 0 <= i < MAXQ /\ slot s i = None) -> blk <> None ->
   to_int (fst r) = QE_INTINCON /\ noncectr (snd r) = noncectr s + 1) /\
  ((exists i, 0 <= i < MAXQ /\ slot s i = None) -> blk = None ->
   to_int (fst r) = QE_NOROOM /\ noncectr (snd r) = noncectr s) /\
  ((forall i, 0 <= i < MAXQ -> slot s i <> None) ->
   to_int (fst r) = QE_TOOMANYQS /\ noncectr (snd r) = noncectr s).
Proof.
  intros Hc Hs r.
  assert (Hsum : to_uint (noncectr s + NOFFSET) = noncectr s + NOFFSET)
    by (apply to_uint_small; lia).
  assert (Hinc : to_uint (noncectr s + 1) = noncectr s + 1)
    by (apply to_uint_small; unfold NOFFSET in Hs; lia).
  pose proof (create_queue_cases blk s) as Hcases. cbv zeta in Hcases.
  fold r in Hcases. rewrite Hsum, Hinc in Hcases.
  pose proof (free_slot_scan s) as Hfree. pose proof (scan_full s) as Hfull.
  set (cur := scan (Z.to_nat MAXQ) 0 s) in *. clearbody cur r.
  destruct Hcases
    as [[Hcur Hr] | [(Hcur & Hblk & Hr & Hq & Hn) |
        [(Hcur & Hblk & _ & Hr & Hq & Hn) | (_ & ? & _)]]]; [| | | lia].
  - rewrite Hr. cbn [fst snd ERRBUF queues noncectr].
    split; [reflexivity |]. split; [| split].
    + intros Hex. specialize (Hfree Hex). lia.
    + intros Hex. specialize (Hfree Hex). lia.
    + intros _. split; reflexivity.
  - rewrite Hr. split; [exact Hq |]. split; [| split].
    + intros _ ?. contradiction.
    + intros _ _. split; [reflexivity | exact Hn].
    + intros Hocc. specialize (Hfull Hocc). lia.
  - rewrite Hr. split; [exact Hq |]. split; [| split].
    + intros _ _. split; [reflexivity | exact Hn].
    + intros _ ?. contradiction.
    + intros Hocc. specialize (Hfull Hocc). lia.
Qed.

(** While [noncectr + NOFFSET] stays between 2^16 and 2^32, no call of a
    sequence is given a ticket. *)
Lemma issued_after_overflow ops : forall s,
  0 <= noncectr s -> 2 ^ 16 <= noncectr s + NOFFSET ->
  noncectr s + NOFFSET + Z.of_nat (creates ops) <= 2 ^ 32 ->
  issued ops (fst (run ops s)) = [].
Proof.
  induction ops as [| o ops IH]; intros s Hc Hlo Hhi; [reflexivity |].
  rewrite run_cons. cbn [fst snd]. rewrite issued_cons.
  rewrite creates_cons, Nat2Z.inj_add in Hhi.
  pose proof (step_counter o s Hc ltac:(lia)) as Hstep.
  set (s1 := snd (step o s)) in *. set (r := fst (step o s)) in *.
  clearbody s1 r.
  destruct Hstep
    as [(His & [Hn | (Hcr & Hn & _)]) | (_ & _ & ? & _)]; [| | lia];
    rewrite His; cbn [app]; apply IH; lia.
Qed.

(** ** Running the counter round *)

Lemma init_slot0 : queues init_state !! 0%nat = Some None.
Proof. reflexivity. Qed.

Lemma init_length : length (queues init_state) = 1024%nat.
Proof. reflexivity. Qed.

Lemma empty_table_scan s :
  queues s = queues init_state -> scan (Z.to_nat MAXQ) 0 s = 0.
Proof.
  intros Hq. apply scan_least.
  - unfold MAXQ. lia.
  - unfold slot. rewrite Hq. change (Z.to_nat 0) with 0%nat.
    rewrite init_slot0. reflexivity.
  - intros j Hj. lia.
Qed.

(** One round of [churn] on an empty table leaves the table empty and the
    counter one higher, in [unsigned] arithmetic. *)
Lemma churn_spec b s :
  queues s = queues init_state ->
  queues (churn b s) = queues init_state /\
  noncectr (churn b s) = to_uint (noncectr s + 1).
Proof.
  intros Hq. unfold churn.
  pose proof (create_queue_cases (Some b) s) as Hcases. cbv zeta in Hcases.
  rewrite (empty_table_scan s Hq) in Hcases.
  pose proof (to_uint_range (noncectr s + NOFFSET)) as Hsum.
  set (sum := to_uint (noncectr s + NOFFSET)) in *. clearbody sum.
  destruct (create_queue (Some b) s) as [t s1]. cbn [fst snd] in Hcases.
  destruct Hcases
    as [[Hcur _] | [(_ & Hblk & _) | [(_ & _ & _ & Ht & Hq1 & Hn1) |
        (_ & Hgood & b' & _ & Ht & Hq1 & Hn1)]]].
  - discriminate Hcur.
  - discriminate Hblk.
  - rewrite Ht. change (QE_ISERROR (to_int (to_uint QE_INTINCON))) with true.
    cbv iota. rewrite Hq1. auto.
  - destruct (mk_ticket_fields 0 sum ltac:(unfold MAXQ; lia) ltac:(lia))
      as (Hrange & Hidx & Hnonce).
    rewrite Ht, to_int_small by assumption.
    assert (Hne : QE_ISERROR (mk_ticket 0 sum) = false)
      by (apply Z.ltb_ge; lia).
    rewrite Hne.
    set (q := {| ticket := mk_ticket 0 sum; que := que b';
                 head := 0; count := 0 |}) in *.
    assert (Hl : live (mk_ticket 0 sum) s1 q).
    { unfold live. rewrite Hidx. split; [reflexivity |]. split; [| split].
      - apply slot_lookup. rewrite Hq1. change (Z.to_nat 0) with 0%nat.
        apply list_lookup_insert_eq. rewrite Hq, init_length. lia.
      - reflexivity.
      - apply queue_ok_spec. unfold q. cbn [head count ticket].
        rewrite Hnonce. unfold MAXELT. lia. }
    rewrite (delete_queue_live _ _ _ Hl), Hidx.
    cbn [snd set_slot queues noncectr]. rewrite Hq1.
    change (Z.to_nat 0) with 0%nat.
    rewrite list_insert_insert_eq, Hq.
    split; [apply list_insert_id, init_slot0 | exact Hn1].
Qed.

Lemma churn_iter b n : forall s,
  queues s = queues init_state -> 0 <= noncectr s < 2 ^ 32 ->
  queues (N.iter n (churn b) s) = queues init_state /\
  noncectr (N.iter n (churn b) s) = to_uint (noncectr s + Z.of_N n).
Proof.
  induction n as [| n IH] using N.peano_ind; intros s Hq Hc.
  - cbn [N.iter]. split; [exact Hq |].
    rewrite Z.add_0_r, to_uint_small by assumption. reflexivity.
  - rewrite N.iter_succ. destruct (IH s Hq Hc) as [Hq' Hn'].
    destruct (churn_spec b _ Hq') as [Hq'' Hn''].
    split; [exact Hq'' |]. rewrite Hn'', Hn'. unfold to_uint, modulus.
    rewrite Zplus_mod_idemp_l. f_equal. lia.
Qed.

Lemma run_app ops1 ops2 s :
  snd (run (ops1 ++ ops2) s) = snd (run ops2 (snd (run ops1 s))).
Proof.
  revert s. induction ops1 as [| o ops1 IH]; intros s; [reflexivity |].
  cbn [app]. rewrite !run_cons. cbn [snd]. apply IH.
Qed.

(** The states [churn] leads to are states of a program. *)
Lemma reachable_churn b s : reachable s -> reachable (churn b s).
Proof.
  intros [ops Hops]. unfold churn.
  destruct (create_queue (Some b) s) as [t s1] eqn:Hc.
  destruct (QE_ISERROR (to_int t)).
  - exists (ops ++ [OpCreate (Some b)]).
    rewrite run_app, Hops, run_cons. cbn [step run snd]. rewrite Hc. reflexivity.
  - exists (ops ++ [OpCreate (Some b); OpDelete t]).
    rewrite run_app, Hops, !run_cons. cbn [step run snd]. rewrite Hc. reflexivity.
Qed.

Lemma reachable_churned n : reachable (churned n).
Proof.
  unfold churned. induction n as [| n IH] using N.peano_ind.
  - exists []. reflexivity.
  - rewrite N.iter_succ. apply reachable_churn, IH.
Qed.

Lemma churned_spec n :
  queues (churned n) = queues init_state /\
  noncectr (churned n) = to_uint (1 + Z.of_N n).
Proof.
  unfold churned. apply (churn_iter fresh_block n init_state); [reflexivity |].
  cbn [init_state noncectr]. lia.
Qed.

(** On an empty table whose counter has come round to 2^32 - 1,
    [noncectr + NOFFSET] wraps to 0x501 and [create_queue] is given a
    ticket. *)
Lemma create_queue_wrapped s :
  queues s = queues init_state -> noncectr s = 4294967295 ->
  fst (create_queue (Some fresh_block) s) = 0x12210501 /\
  noncectr (snd (create_queue (Some fresh_block) s)) = 0 /\
  slot (snd (create_queue (Some fresh_block) s)) 0
  = Some {| ticket := 0x12210501; que := que fresh_block;
            head := 0; count := 0 |}.
Proof.
  destruct s as [qs c e]. cbn [queues noncectr]. intros -> ->.
  vm_compute. auto.
Qed.

(** On an empty table whose counter has come round to 1, [create_queue] is
    given the first ticket of the program once more, and that ticket is
    accepted. *)
Lemma create_queue_round s :
  queues s = queues init_state -> noncectr s = 1 ->
  let r := create_queue (Some fresh_block) s in
  fst r = first_ticket /\
  fst (readref first_ticket (snd r)) = 0 /\
  fst (put_on_queue first_ticket 7 (snd r)) = QE_NONE /\
  slot (snd (put_on_queue first_ticket 7 (snd r))) 0
  = Some {| ticket := first_ticket; que := <[0%nat := 7]> (que fresh_block);
            head := 0; count := 1 |} /\
  fst (take_off_queue first_ticket (snd r)) = QE_EMPTY /\
  fst (delete_queue first_ticket (snd r)) = QE_NONE /\
  slot (snd (delete_queue first_ticket (snd r))) 0 = None.
Proof.
  destruct s as [qs c e]. cbn [queues noncectr]. intros -> ->.
  vm_compute. repeat split.
Qed.

(** ** Filling the table *)

Lemma free_slots_insert l : forall i q,
  l !! i = Some None ->
  S (free_slots (<[i := Some q]> l)) = free_slots l.
Proof.
  induction l as [| p l IH]; intros i q Hl; [discriminate |].
  destruct i as [| i].
  - cbn in Hl. injection Hl as ->. reflexivity.
  - cbn in Hl. cbn [free_slots]. change (<[S i := Some q]> (p :: l))
      with (p :: <[i := Some q]> l).
    destruct p; cbn [free_slots]; rewrite <- (IH i q Hl); reflexivity.
Qed.

Lemma free_slots_0 l :
  free_slots l = O -> forall i, l !! i <> Some None.
Proof.
  induction l as [| p l IH]; intros H0 i; [discriminate |].
  destruct p; cbn [free_slots] in H0; [| discriminate].
  destruct i as [| i]; cbn; [discriminate | apply IH, H0].
Qed.

Lemma free_slots_pos l :
  (0 < free_slots l)%nat -> exists i, l !! i = Some None.
Proof.
  induction l as [| p l IH]; cbn [free_slots]; intros Hpos; [lia |].
  destruct p as [q |].
  - destruct (IH Hpos) as [i Hi]. exists (S i). exact Hi.
  - exists O. reflexivity.
Qed.

(** A [create_queue] that is given a block, in a table with a free slot and
    before the generation field overflows, takes one of the free slots. *)
Lemma create_queue_fills b s k :
  table_shape s -> free_slots (queues s) = S k ->
  0 <= noncectr s -> 0 < noncectr s + NOFFSET < 2 ^ 16 ->
  table_shape (snd (create_queue (Some b) s)) /\
  free_slots (queues (snd (create_queue (Some b) s))) = k /\
  noncectr (snd (create_queue (Some b) s)) = noncectr s + 1.
Proof.
  intros Hshape Hfree Hc Hs.
  assert (Hsum : to_uint (noncectr s + NOFFSET) = noncectr s + NOFFSET)
    by (apply to_uint_small; lia).
  assert (Hinc : to_uint (noncectr s + 1) = noncectr s + 1)
    by (apply to_uint_small; unfold NOFFSET in Hs; lia).
  destruct (free_slots_pos (queues s)) as [i Hi]; [lia |].
  assert (Hex : exists j, 0 <= j < MAXQ /\ slot s j = None).
  { exists (Z.of_nat i). apply lookup_lt_Some in Hi as Hlt.
    rewrite Hshape in Hlt. split; [unfold MAXQ in *; lia |].
    unfold slot. rewrite Nat2Z.id, Hi. reflexivity. }
  pose proof (free_slot_scan s Hex) as Hscan.
  destruct (scan_from_0 s) as (Hcur & _ & Hnull). specialize (Hnull Hscan).
  pose proof (create_queue_cases (Some b) s) as Hcases. cbv zeta in Hcases.
  rewrite Hsum, Hinc in Hcases.
  set (cur := scan (Z.to_nat MAXQ) 0 s) in *. clearbody cur.
  destruct Hcases
    as [[? _] | [(_ & ? & _) | [(_ & _ & ? & _) | (_ & _ & b' & _ & _ & Hq & Hn)]]];
    [lia | discriminate | lia |].
  split; [| split; [| exact Hn]].
  - unfold table_shape. rewrite Hq, length_insert. exact Hshape.
  - rewrite Hq. apply eq_add_S. rewrite free_slots_insert; [exact Hfree |].
    unfold slot in Hnull.
    destruct (queues s !! Z.to_nat cur) as [[q |] |] eqn:Hl;
      [discriminate | reflexivity |].
    apply lookup_ge_None in Hl. rewrite Hshape in Hl. unfold MAXQ in *. lia.
Qed.

Lemma create_queues_fill b k : forall s,
  table_shape s -> free_slots (queues s) = k ->
  0 <= noncectr s -> 0 < noncectr s + NOFFSET ->
  noncectr s + NOFFSET + Z.of_nat k <= 2 ^ 16 ->
  let s' := snd (run (repeat (OpCreate (Some b)) k) s) in
  table_shape s' /\ free_slots (queues s') = O /\
  noncectr s' = noncectr s + Z.of_nat k.
Proof.
  induction k as [| k IH]; intros s Hshape Hfree Hc Hlo Hhi.
  - cbn [repeat run snd]. repeat split; auto. lia.
  - cbn [repeat]. cbv zeta. rewrite run_cons. cbn [snd].
    change (step (OpCreate (Some b)) s) with (create_queue (Some b) s).
    destruct (create_queue_fills b s k Hshape Hfree Hc ltac:(lia))
      as (Hshape' & Hfree' & Hn').
    set (s1 := snd (create_queue (Some b) s)) in *. clearbody s1.
    destruct (IH s1 Hshape' Hfree' ltac:(lia) ltac:(lia) ltac:(lia))
      as (Hshape'' & Hfree'' & Hn'').
    split; [exact Hshape'' |]. split; [exact Hfree'' |]. lia.
Qed.

Lemma filled_late_spec :
  reachable filled_late /\
  noncectr filled_late = 0xFAFE /\
  forall i, 0 <= i < MAXQ -> slot filled_late i <> None.
Proof.
  destruct (churned_spec 63229) as [Hq Hn].
  change (to_uint (1 + Z.of_N 63229)) with 63230 in Hn.
  pose proof (reachable_churned 63229) as Hreach.
  unfold filled_late. revert Hq Hn Hreach. generalize (churned 63229).
  intros s Hq Hn [ops Hops].
  destruct (create_queues_fill fresh_block (Z.to_nat MAXQ) s)
    as (Hshape & Hfree & Hn').
  - unfold table_shape. rewrite Hq. reflexivity.
  - rewrite Hq. reflexivity.
  - rewrite Hn. lia.
  - rewrite Hn. unfold NOFFSET. lia.
  - rewrite Hn. unfold NOFFSET, MAXQ. lia.
  - set (s' := snd (run (repeat (OpCreate (Some fresh_block)) (Z.to_nat MAXQ)) s))
      in *. split; [| split].
    + exists (ops ++ repeat (OpCreate (Some fresh_block)) (Z.to_nat MAXQ)).
      rewrite run_app, Hops. reflexivity.
    + rewrite Hn', Hn. reflexivity.
    + clearbody s'. intros i Hi. unfold slot.
      destruct (queues s' !! Z.to_nat i) as [[q |] |] eqn:Hl;
        [discriminate | |].
      * exfalso. apply (free_slots_0 _ Hfree _ Hl).
      * apply lookup_ge_None in Hl. rewrite Hshape in Hl.
        unfold MAXQ in *. lia.
Qed.

(** C10, as amended. Take a state in which [noncectr + NOFFSET] is at least
    2^16 and less than 2^32, that is, 0xFAFE <= noncectr <= 0xFFFFFAFD.
    Every [qtktref] call with an index that passes the range test fails its
    16-bit test, returns QE_INTINCON and still adds one to [noncectr]. A
    [create_queue] call leaves [queues] unchanged; it returns QE_INTINCON,
    with the counter one higher, when the table has a free slot and [malloc]
    gives a block, QE_NOROOM when [malloc] gives none, and QE_TOOMANYQS when
    the table is full, the counter then staying as it was. No call of a
    sequence of calls is given a ticket as long as the counter stays in that
    range. The tickets given before that point, while
    [noncectr + NOFFSET] < 2^16, carry pairwise different generation
    fields. *)
Theorem generation_overflow :
  (forall index s,
     0 <= index <= MAXQ -> 0 <= noncectr s ->
     2 ^ 16 <= noncectr s + NOFFSET < 2 ^ 32 ->
     Z.land (to_uint (noncectr s + NOFFSET)) 0xffff
       <> to_uint (noncectr s + NOFFSET) /\
     fst (qtktref index s) = to_uint QE_INTINCON /\
     noncectr (snd (qtktref index s)) = noncectr s + 1 /\
     queues (snd (qtktref index s)) = queues s) /\
  (forall blk s,
     0 <= noncectr s -> 2 ^ 16 <= noncectr s + NOFFSET < 2 ^ 32 ->
     let r := create_queue blk s in
     queues (snd r) = queues s /\
     ((exists i, 0 <= i < MAXQ /\ slot s i = None) -> blk <> None ->
      to_int (fst r) = QE_INTINCON /\ noncectr (snd r) = noncectr s + 1) /\
     ((exists i, 0 <= i < MAXQ /\ slot s i = None) -> blk = None ->
      to_int (fst r) = QE_NOROOM /\ noncectr (snd r) = noncectr s) /\
     ((forall i, 0 <= i < MAXQ -> slot s i <> None) ->
      to_int (fst r) = QE_TOOMANYQS /\ noncectr (snd r) = noncectr s)) /\
  (forall ops s,
     0 <= noncectr s -> 2 ^ 16 <= noncectr s + NOFFSET ->
     noncectr s + NOFFSET + Z.of_nat (creates ops) <= 2 ^ 32 ->
     issued ops (fst (run ops s)) = []) /\
  (forall ops s,
     0 <= noncectr s ->
     noncectr s + NOFFSET + Z.of_nat (creates ops) <= 2 ^ 16 ->
     NoDup (map ticket_nonce (issued ops (fst (run ops s))))).
Proof.
  split; [| split; [| split]].
  - intros index s. apply qtktref_overflow.
  - intros blk s. apply create_queue_overflow.
  - intros ops s. apply issued_after_overflow.
  - intros ops s Hc Hb. apply (issued_before_overflow ops s Hc Hb).
Qed.

Lemma generation_overflow_witness :
  (fst (qtktref 0 (set_noncectr 0xFAFE init_state)) = to_uint QE_INTINCON /\
   noncectr (snd (qtktref 0 (set_noncectr 0xFAFE init_state))) = 0xFAFF) /\
  (to_int (fst (create_queue (Some fresh_block)
                  (set_noncectr 0xFAFE init_state))) = QE_INTINCON /\
   to_int (fst (create_queue None (set_noncectr 0xFAFE init_state)))
   = QE_NOROOM /\
   to_int (fst (create_queue (Some fresh_block) filled_late))
   = QE_TOOMANYQS) /\
  issued [OpCreate (Some fresh_block); OpCreate (Some fresh_block)]
    (fst (run [OpCreate (Some fresh_block); OpCreate (Some fresh_block)]
            (set_noncectr 0xFAFE init_state))) = [] /\
  NoDup (map ticket_nonce
           (issued [OpCreate (Some fresh_block); OpCreate (Some fresh_block)]
              (fst (run [OpCreate (Some fresh_block);
                         OpCreate (Some fresh_block)] init_state)))).
Proof.
  destruct generation_overflow as (Hmint & Hcreate & Hnone & Hdistinct).
  assert (Hfree : exists i, 0 <= i < MAXQ /\
                    slot (set_noncectr 0xFAFE init_state) i = None).
  { exists 0. split; [unfold MAXQ; lia | reflexivity]. }
  split; [| split; [| split]].
  - destruct (Hmint 0 (set_noncectr 0xFAFE init_state))
      as (_ & Hr & Hn & _).
    + unfold MAXQ. lia.
    + by_evaluation.
    + by_evaluation.
    + split; [exact Hr | exact Hn].
  - split; [| split].
    + destruct (Hcreate (Some fresh_block) (set_noncectr 0xFAFE init_state))
        as (_ & Hr & _); [by_evaluation | by_evaluation |].
      apply Hr; [exact Hfree | discriminate].
    + destruct (Hcreate None (set_noncectr 0xFAFE init_state))
        as (_ & _ & Hr & _); [by_evaluation | by_evaluation |].
      apply Hr; [exact Hfree | reflexivity].
    + destruct filled_late_spec as (_ & Hn & Hocc).
      destruct (Hcreate (Some fresh_block) filled_late)
        as (_ & _ & _ & Hr);
        [rewrite Hn; lia | rewrite Hn; unfold NOFFSET; lia |].
      destruct (Hr Hocc) as [Hfull _]. exact Hfull.
  - apply Hnone; by_evaluation.
  - apply Hdistinct; by_evaluation.
Defined.

(** C10, as stated, fails in three ways. With a full table [create_queue]
    returns QE_TOOMANYQS, not QE_INTINCON, and does not touch the counter;
    when [malloc] returns NULL it returns QE_NOROOM; and once the counter has
    come round to 2^32 - 1 the sum [noncectr + NOFFSET] wraps to 0x501, so
    that [create_queue] is given a ticket again and writes the table. *)
Lemma create_after_overflow_counterexample :
  (reachable filled_late /\
   2 ^ 16 <= noncectr filled_late + NOFFSET /\
   to_int (fst (create_queue (Some fresh_block) filled_late))
   = QE_TOOMANYQS /\
   noncectr (snd (create_queue (Some fresh_block) filled_late))
   = noncectr filled_late) /\
  (reachable (churned 64253) /\
   2 ^ 16 <= noncectr (churned 64253) + NOFFSET /\
   to_int (fst (create_queue None (churned 64253))) = QE_NOROOM) /\
  (reachable (churned 4294967294) /\
   2 ^ 16 <= noncectr (churned 4294967294) + NOFFSET /\
   fst (create_queue (Some fresh_block) (churned 4294967294)) = 0x12210501 /\
   QE_ISERROR (to_int 0x12210501) = false /\
   slot (churned 4294967294) 0 = None /\
   slot (snd (create_queue (Some fresh_block) (churned 4294967294))) 0
   = Some {| ticket := 0x12210501; que := que fresh_block;
             head := 0; count := 0 |}).
Proof.
  split; [| split].
  - destruct filled_late_spec as (Hreach & Hn & Hocc).
    destruct (create_queue_overflow (Some fresh_block) filled_late)
      as (_ & _ & _ & Hr);
      [rewrite Hn; lia | rewrite Hn; unfold NOFFSET; lia |].
    destruct (Hr Hocc) as [Hr1 Hr2].
    split; [exact Hreach |].
    split; [rewrite Hn; vm_compute; discriminate |].
    split; [exact Hr1 | exact Hr2].
  - destruct (churned_spec 64253) as [Hq Hn].
    change (to_uint (1 + Z.of_N 64253)) with 0xFAFE in Hn.
    split; [apply reachable_churned |].
    split; [rewrite Hn; vm_compute; discriminate |].
    pose proof (create_queue_cases None (churned 64253)) as Hcases.
    cbv zeta in Hcases. rewrite (empty_table_scan _ Hq) in Hcases.
    destruct Hcases
      as [[Hcur _] | [(_ & _ & Hr & _) | [(_ & Hblk & _) | (_ & _ & b & Hblk & _)]]].
    + discriminate Hcur.
    + rewrite Hr. reflexivity.
    + contradiction.
    + discriminate Hblk.
  - destruct (churned_spec 4294967294) as [Hq Hn].
    change (to_uint (1 + Z.of_N 4294967294)) with 4294967295 in Hn.
    destruct (create_queue_wrapped _ Hq Hn) as (Hr & _ & Hs).
    split; [apply reachable_churned |].
    split; [rewrite Hn; vm_compute; discriminate |].
    split; [exact Hr |]. split; [reflexivity |]. split; [| exact Hs].
    unfold slot. rewrite Hq. reflexivity.
Qed.

(** ** A deleted ticket stays rejected until the counter wraps *)

Lemma stored_queues (P : Z -> Prop) s s' :
  queues s' = queues s -> stored P s -> stored P s'.
Proof. unfold stored. intros ->. auto. Qed.

Lemma stored_impl (P Q : Z -> Prop) s :
  (forall t, P t -> Q t) -> stored P s -> stored Q s.
Proof. unfold stored. intros HPQ HP i q Hl. apply HPQ, (HP i q Hl). Qed.

Lemma stored_set_slot (P : Z -> Prop) i p s :
  (forall q, p = Some q -> P (ticket q)) ->
  stored P s -> stored P (set_slot i p s).
Proof.
  intros Hp Hs j q. unfold set_slot. cbn [queues]. intros Hl.
  apply list_lookup_insert_Some in Hl as [(_ & Heq & _) | (_ & Hl)].
  - apply Hp, Heq.
  - apply (Hs j q Hl).
Qed.

Lemma stored_slot (P : Z -> Prop) s i q :
  stored P s -> slot s i = Some q -> P (ticket q).
Proof. intros Hs Hl. apply slot_lookup in Hl. apply (Hs _ _ Hl). Qed.

(** A call keeps [P] true of the stored tickets if [P] is true of the ticket
    it returns, when it returns one. *)
Lemma stored_step (P : Z -> Prop) o s :
  stored P s ->
  (issued [o] [fst (step o s)] = [fst (step o s)] -> P (fst (step o s))) ->
  stored P (snd (step o s)).
Proof.
  intros Hs Hnew. destruct o as [blk | qno | qno n | qno].
  - change (step (OpCreate blk) s) with (create_queue blk s) in *.
    destruct (scan_from_0 s) as (Hcur & _).
    pose proof (to_uint_range (noncectr s + NOFFSET)) as Hsum.
    destruct (create_queue_cases blk s)
      as [[_ ->] | [(_ & _ & _ & Hq & _) | [(_ & _ & _ & _ & Hq & _) |
          (Hlt & Hgood & b & _ & Hr & Hq & _)]]];
      try (apply (stored_queues P s _ Hq Hs)); [exact Hs |].
    set (cur := scan (Z.to_nat MAXQ) 0 s) in *.
    set (sum := to_uint (noncectr s + NOFFSET)) in *. clearbody cur sum.
    destruct (mk_ticket_fields cur sum Hcur ltac:(lia)) as (Ht & _).
    apply (stored_queues P (set_slot cur (Some {| ticket := mk_ticket cur sum;
                                                  que := que b; head := 0;
                                                  count := 0 |}) s) _ Hq).
    apply stored_set_slot; [| exact Hs].
    intros q [= <-]. cbn [ticket]. rewrite <- Hr. apply Hnew.
    cbn [issued]. rewrite Hr, to_int_small by assumption.
    assert (Hne : QE_ISERROR (mk_ticket cur sum) = false)
      by (apply Z.ltb_ge; lia).
    rewrite Hne. reflexivity.
  - change (step (OpDelete qno) s) with (delete_queue qno s).
    destruct (QE_ISERROR (fst (readref qno s))) eqn:Herr.
    + destruct (rejected_by_all qno s Herr) as (-> & _).
      apply (stored_queues P s _ (proj1 (readref_frame qno s)) Hs).
    + destruct (readref_accepts qno s Herr) as (q & Hl & _).
      rewrite (delete_queue_live _ _ _ Hl). cbn [snd].
      apply stored_set_slot; [discriminate | exact Hs].
  - change (step (OpPut qno n) s) with (put_on_queue qno n s).
    destruct (QE_ISERROR (fst (readref qno s))) eqn:Herr.
    + destruct (rejected_by_all qno s Herr) as (_ & -> & _).
      apply (stored_queues P s _ (proj1 (readref_frame qno s)) Hs).
    + destruct (readref_accepts qno s Herr) as (q & Hl & _).
      rewrite (put_on_queue_live _ _ _ _ Hl).
      destruct (count q =? MAXELT); cbn [snd]; [exact Hs |].
      apply stored_set_slot; [| exact Hs].
      intros q1 [= <-]. cbn [ticket].
      destruct Hl as (_ & Hslot & _). apply (stored_slot P s _ q Hs Hslot).
  - change (step (OpTake qno) s) with (take_off_queue qno s).
    destruct (QE_ISERROR (fst (readref qno s))) eqn:Herr.
    + destruct (rejected_by_all qno s Herr) as (_ & _ & ->).
      apply (stored_queues P s _ (proj1 (readref_frame qno s)) Hs).
    + destruct (readref_accepts qno s Herr) as (q & Hl & _).
      rewrite (take_off_queue_live _ _ _ Hl).
      destruct (count q =? 0); cbn [snd]; [exact Hs |].
      apply stored_set_slot; [| exact Hs].
      intros q1 [= <-]. cbn [ticket].
      destruct Hl as (_ & Hslot & _). apply (stored_slot P s _ q Hs Hslot).
Qed.

Lemma step_counter_bounds o s :
  0 <= noncectr s ->
  (creates [o] = 1%nat -> noncectr s + NOFFSET < 2 ^ 32) ->
  noncectr s <= noncectr (snd (step o s))
    <= noncectr s + Z.of_nat (creates [o]) /\
  (issued [o] [fst (step o s)] = [fst (step o s)] ->
   ticket_nonce (fst (step o s)) = noncectr s + NOFFSET /\
   noncectr (snd (step o s)) = noncectr s + 1).
Proof.
  intros Hc Hs.
  destruct (step_counter o s Hc Hs)
    as [(His & [Hn | (Hcr & Hn & _)]) | (_ & Hcr & _ & Hnonce & Hn)].
  - split; [lia |]. rewrite His. discriminate.
  - split; [lia |]. rewrite His. discriminate.
  - split; [lia | auto].
Qed.

(** A property of states that every call preserves while the counter does
    not wrap is true after every sequence of calls that does not make it
    wrap. *)
Lemma run_invariant (I : state -> Prop) :
  (forall o s, 0 <= noncectr s ->
     (creates [o] = 1%nat -> noncectr s + NOFFSET < 2 ^ 32) ->
     I s -> I (snd (step o s))) ->
  forall ops s,
    0 <= noncectr s ->
    noncectr s + NOFFSET + Z.of_nat (creates ops) <= 2 ^ 32 ->
    I s ->
    I (snd (run ops s)) /\
    noncectr s <= noncectr (snd (run ops s))
      <= noncectr s + Z.of_nat (creates ops).
Proof.
  intros Hstep. induction ops as [| o ops IH]; intros s Hc Hb HI.
  - cbn [run snd creates]. split; [exact HI | lia].
  - rewrite run_cons. cbn [snd].
    rewrite creates_cons, Nat2Z.inj_add in *.
    destruct (step_counter_bounds o s Hc ltac:(lia)) as [Hn _].
    specialize (Hstep o s Hc ltac:(lia) HI).
    set (s1 := snd (step o s)) in *. clearbody s1.
    destruct (IH s1 ltac:(lia) ltac:(lia) Hstep) as [HI' Hn'].
    split; [exact HI' | lia].
Qed.

Lemma minted_below_step o s :
  0 <= noncectr s ->
  (creates [o] = 1%nat -> noncectr s + NOFFSET < 2 ^ 32) ->
  minted_below s -> minted_below (snd (step o s)).
Proof.
  intros Hc Hs Hm. unfold minted_below in *.
  destruct (step_counter_bounds o s Hc Hs) as [Hn Hissued].
  apply stored_step.
  - eapply stored_impl; [| exact Hm]. cbv beta. intros t Ht. lia.
  - intros His. destruct (Hissued His) as [Hnonce Hn']. lia.
Qed.

Lemma spent_step h o s :
  0 <= noncectr s ->
  (creates [o] = 1%nat -> noncectr s + NOFFSET < 2 ^ 32) ->
  spent h s -> spent h (snd (step o s)).
Proof.
  intros Hc Hs [Hh Hstored].
  destruct (step_counter_bounds o s Hc Hs) as [Hn Hissued].
  split; [lia |]. apply stored_step; [exact Hstored |].
  intros His. destruct (Hissued His) as [Hnonce _].
  intros Heq. rewrite Heq in Hnonce. lia.
Qed.

(** A ticket that is stored nowhere is rejected with QE_BADTICKET. *)
Lemma unstored_rejected h s :
  stored (fun t => t <> h) s -> fst (readref h s) = QE_BADTICKET.
Proof.
  intros Hs.
  destruct (readref_cases h s)
    as [[_ Hr] | [(_ & _ & Hr) | [(q & _ & _ & _ & Hr) |
        [(q & _ & Hslot & Heq & _) | (q & (_ & Hslot & Heq & _) & _)]]]];
    try exact Hr;
    exfalso; apply (stored_slot _ _ _ _ Hs Hslot); exact Heq.
Qed.

(** Deleting a live queue spends its ticket. *)
Lemma delete_queue_spends h s q :
  live h s q -> tickets_indexed s -> minted_below s ->
  spent h (snd (delete_queue h s)).
Proof.
  intros Hl Hind Hm. rewrite (delete_queue_live _ _ _ Hl). cbn [snd].
  pose proof (live_index_range _ _ _ Hl) as Hidx.
  destruct Hl as (_ & Hslot & Ht & _). split.
  - cbn [set_slot noncectr]. rewrite <- Ht.
    apply (stored_slot _ _ _ _ Hm Hslot).
  - intros j q'. unfold set_slot. cbn [queues]. intros Hj.
    apply list_lookup_insert_Some in Hj.
    destruct Hj as [Hj | [Hne Hj]]; [destruct Hj as (_ & Hj & _); discriminate |].
    intros Heq. pose proof (Hind j q' Hj) as Hidx'.
    rewrite Heq in Hidx'. lia.
Qed.

(** Until the counter wraps, C1 holds. Let [h] be the ticket of a queue
    that lives after the calls [ops1] of a program, and let the program
    delete that queue and go on with any calls [ops2], among them, possibly,
    [create_queue] calls that reuse the slot. If the program has made no
    more [create_queue] calls than keep [noncectr + NOFFSET] from passing
    2^32, then [h] is rejected with QE_BADTICKET by [delete_queue],
    [put_on_queue] and [take_off_queue], which leave [queues] and
    [noncectr] as they are. *)
Lemma stale_ticket_rejected_before_wrap ops1 ops2 h :
  1 + NOFFSET + Z.of_nat (creates ops1) + Z.of_nat (creates ops2) <= 2 ^ 32 ->
  QE_ISERROR (fst (readref h (snd (run ops1 init_state)))) = false ->
  let d := delete_queue h (snd (run ops1 init_state)) in
  let s := snd (run ops2 (snd d)) in
  fst d = QE_NONE /\
  fst (delete_queue h s) = QE_BADTICKET /\
  (forall n, fst (put_on_queue h n s) = QE_BADTICKET) /\
  fst (take_off_queue h s) = QE_BADTICKET /\
  queues (snd (delete_queue h s)) = queues s /\
  (forall n, queues (snd (put_on_queue h n s)) = queues s) /\
  queues (snd (take_off_queue h s)) = queues s /\
  noncectr (snd (delete_queue h s)) = noncectr s /\
  (forall n, noncectr (snd (put_on_queue h n s)) = noncectr s) /\
  noncectr (snd (take_off_queue h s)) = noncectr s.
Proof.
  intros Hb Hlive d s.
  destruct (shape_indexed_run ops1 init_state shape_indexed_init) as [_ Hind].
  destruct (run_invariant minted_below minted_below_step ops1 init_state)
    as [Hm Hn1].
  { cbn. lia. }
  { cbn [init_state noncectr]. lia. }
  { intros i q Hl. unfold init_state in Hl. cbn [queues] in Hl.
    apply lookup_replicate in Hl as [Hl _]. discriminate. }
  cbn [init_state noncectr] in Hn1.
  destruct (readref_accepts _ _ Hlive) as (q & Hl & _).
  pose proof (delete_queue_spends h _ q Hl Hind Hm) as Hspent.
  assert (Hd : fst d = QE_NONE).
  { unfold d. rewrite (delete_queue_live _ _ _ Hl). reflexivity. }
  assert (Hnd : noncectr (snd d) = noncectr (snd (run ops1 init_state))).
  { exact (proj1 (noncectr_ticket_ops h (snd (run ops1 init_state)))). }
  fold d in Hspent.
  set (s1 := snd (run ops1 init_state)) in *. clearbody s1. clearbody d.
  destruct (run_invariant (spent h) (spent_step h) ops2 (snd d))
    as [[_ Hstored] _]; [lia | lia | exact Hspent |].
  fold s in Hstored. clearbody s.
  pose proof (unstored_rejected h s Hstored) as Hrej.
  assert (Herr : QE_ISERROR (fst (readref h s)) = true)
    by (rewrite Hrej; reflexivity).
  destruct (rejected_by_all h s Herr) as (Hdel & Hput & Htake).
  destruct (readref_frame h s) as [Hq Hn].
  split; [exact Hd |].
  rewrite Hdel, Htake.
  split; [exact Hrej |]. split; [intros n; rewrite Hput; exact Hrej |].
  split; [exact Hrej |]. split; [exact Hq |].
  split; [intros n; rewrite Hput; exact Hq |]. split; [exact Hq |].
  split; [exact Hn |]. split; [intros n; rewrite Hput; exact Hn | exact Hn].
Qed.

(** ** A deleted ticket that is accepted again *)

Lemma reachable_iter b n s : reachable s -> reachable (N.iter n (churn b) s).
Proof.
  intros Hs. induction n as [| n IH] using N.peano_ind; [exact Hs |].
  rewrite N.iter_succ. apply reachable_churn, IH.
Qed.

Lemma stale_prefix_run :
  fst (run stale_prefix init_state)
  = [first_ticket; QE_NONE; 0x12210504; QE_NONE] /\
  queues (snd (run stale_prefix init_state)) = queues init_state /\
  noncectr (snd (run stale_prefix init_state)) = 3.
Proof. by_evaluation. Qed.

(** C1 fails on the following run. [create_queue] returns the ticket
    0x12210503 for slot 0 and [delete_queue] deletes that queue. A second
    [create_queue] returns 0x12210504 for slot 0 again, and while that queue
    lives the first ticket is rejected with QE_BADTICKET. The second queue is
    deleted, and 2^32 - 2 further [create_queue] calls, each followed by
    [delete_queue] when it returned a ticket, bring [noncectr], an
    [unsigned], round to 1. The next [create_queue] returns 0x12210503 once
    more, and the calls made with the ticket of the first queue, deleted long
    ago, are accepted: [put_on_queue] returns QE_NONE and stores its argument
    in the new queue, [take_off_queue] returns QE_EMPTY, [delete_queue]
    returns QE_NONE and deletes the new queue. *)
Theorem stale_ticket_accepted_after_wrap :
  let r := create_queue (Some fresh_block) stale_round in
  fst (run stale_prefix init_state)
  = [first_ticket; QE_NONE; 0x12210504; QE_NONE] /\
  ticket_index first_ticket = 0 /\ ticket_index 0x12210504 = 0 /\
  fst (run [OpCreate (Some fresh_block); OpDelete first_ticket;
            OpCreate (Some fresh_block); OpPut first_ticket 7] init_state)
  = [first_ticket; QE_NONE; 0x12210504; QE_BADTICKET] /\
  reachable stale_round /\
  fst r = first_ticket /\
  fst (put_on_queue first_ticket 7 (snd r)) = QE_NONE /\
  slot (snd (put_on_queue first_ticket 7 (snd r))) 0
  = Some {| ticket := first_ticket; que := <[0%nat := 7]> (que fresh_block);
            head := 0; count := 1 |} /\
  fst (take_off_queue first_ticket (snd r)) = QE_EMPTY /\
  fst (delete_queue first_ticket (snd r)) = QE_NONE /\
  slot (snd (delete_queue first_ticket (snd r))) 0 = None.
Proof.
  destruct stale_prefix_run as (Hrs & Hq & Hn).
  assert (Hround : queues stale_round = queues init_state /\
                   noncectr stale_round = 1).
  { unfold stale_round.
    destruct (churn_iter fresh_block 4294967294
                (snd (run stale_prefix init_state)) Hq) as [Hq' Hn'].
    - rewrite Hn. lia.
    - split; [exact Hq' |]. rewrite Hn', Hn. reflexivity. }
  destruct Hround as [Hq' Hn'].
  pose proof (create_queue_round stale_round Hq' Hn') as Hnew.
  assert (Hreach : reachable stale_round).
  { apply reachable_iter. exists stale_prefix. reflexivity. }
  revert Hnew Hreach. generalize stale_round. intros s Hnew Hreach.
  cbv zeta in Hnew |- *.
  destruct Hnew as (H1 & _ & H2 & H3 & H4 & H5 & H6).
  split; [exact Hrs |].
  split; [reflexivity |]. split; [reflexivity |].
  split; [by_evaluation |].
  split; [exact Hreach |].
  split; [exact H1 |]. split; [exact H2 |]. split; [exact H3 |].
  split; [exact H4 |]. split; [exact H5 | exact H6].
Qed.

(** * Further properties of qlib.c *)

(** ** list_queue *)

Lemma mod_MAXELT_range z : 0 <= z mod MAXELT < MAXELT.
Proof. apply Z.mod_pos_bound. reflexivity. Qed.

(** The loop prints [n + 1] cells, from [l] on and round the end of the
    array, when [m] is first met after [n + 1] steps. *)
Lemma list_loop_run q m n : forall fuel l,
  0 <= l < MAXELT ->
  (forall k, 1 <= k <= Z.of_nat n -> (l + k) mod MAXELT <> m) ->
  (l + Z.of_nat n + 1) mod MAXELT = m ->
  (n < fuel)%nat ->
  list_loop fuel q l m
  = Some (map (fun k => print_elt (que_get q ((l + Z.of_nat k) mod MAXELT)))
              (seq 0 (S n))).
Proof.
  induction n as [| n IH]; intros fuel l Hl Hbefore Hat Hfuel;
    (destruct fuel as [| fuel]; [lia |]); cbn [list_loop];
    rewrite rem_MAXELT by lia.
  - change (Z.of_nat 0) with 0 in *. rewrite Z.add_0_r in Hat.
    rewrite Hat, Z.eqb_refl. cbn [negb seq map].
    rewrite Z.add_0_r, Z.mod_small by assumption. reflexivity.
  - destruct (Z.eqb_spec ((l + 1) mod MAXELT) m) as [Heq | Hne].
    { exfalso. apply (Hbefore 1); [lia | exact Heq]. }
    cbn [negb]. pose proof (mod_MAXELT_range (l + 1)) as Hl'.
    rewrite (IH fuel ((l + 1) mod MAXELT) Hl'); [| | | lia].
    + change (seq 0 (S (S n))) with (0%nat :: seq 1 (S n)).
      rewrite <- seq_shift. cbn [map]. rewrite map_map.
      change (Z.of_nat 0) with 0.
      rewrite Z.add_0_r, (Z.mod_small l) by assumption.
      do 2 f_equal. apply map_ext. intros k.
      rewrite Z.add_mod_idemp_l by (unfold MAXELT; lia).
      do 2 f_equal. apply (f_equal2 Z.modulo); [lia | reflexivity].
    + intros k Hk. rewrite Z.add_mod_idemp_l by (unfold MAXELT; lia).
      replace (l + 1 + k) with (l + (k + 1)) by lia. apply Hbefore. lia.
    + rewrite <- Hat.
      replace ((l + 1) mod MAXELT + Z.of_nat n + 1)
        with ((l + 1) mod MAXELT + (Z.of_nat n + 1)) by lia.
      rewrite Z.add_mod_idemp_l by (unfold MAXELT; lia).
      apply (f_equal2 Z.modulo); [lia | reflexivity].
Qed.

Lemma mod_MAXELT_differ a b :
  0 < b - a < MAXELT -> a mod MAXELT <> b mod MAXELT.
Proof.
  unfold MAXELT. intros Hd.
  pose proof (Z.mod_pos_bound a 1024 ltac:(lia)).
  pose proof (Z.mod_pos_bound b 1024 ltac:(lia)).
  pose proof (Z.div_mod a 1024 ltac:(lia)).
  pose proof (Z.div_mod b 1024 ltac:(lia)).
  lia.
Qed.

(** The cells the loop of [list_queue] prints for a consistent queue: as
    many as the count says, but all MAXELT of them when the count is 0. *)
Lemma list_loop_live q :
  queue_ok q = true ->
  list_loop (Z.to_nat MAXELT) q (head q) (Z.rem (head q + count q) MAXELT)
  = Some (map (fun k => print_elt
                          (que_get q ((head q + Z.of_nat k) mod MAXELT)))
              (seq 0 (Z.to_nat (if count q =? 0 then MAXELT else count q)))).
Proof.
  intros Hok. apply queue_ok_spec in Hok as (Hh & Hc & _).
  rewrite rem_MAXELT by lia.
  set (n := Z.to_nat ((if count q =? 0 then MAXELT else count q) - 1)).
  replace (Z.to_nat (if count q =? 0 then MAXELT else count q)) with (S n)
    by (unfold n; destruct (Z.eqb_spec (count q) 0); unfold MAXELT in *; lia).
  assert (Hn : Z.of_nat n = (if count q =? 0 then MAXELT else count q) - 1)
    by (unfold n; destruct (Z.eqb_spec (count q) 0); unfold MAXELT in *; lia).
  apply list_loop_run; [assumption | | |].
  - intros k Hk. rewrite Hn in Hk.
    destruct (Z.eqb_spec (count q) 0) as [H0 | Hpos].
    + rewrite H0, Z.add_0_r. apply not_eq_sym, mod_MAXELT_differ. lia.
    + apply mod_MAXELT_differ. lia.
  - rewrite Hn. destruct (Z.eqb_spec (count q) 0) as [H0 | Hpos].
    + rewrite H0, Z.add_0_r.
      replace (head q + (MAXELT - 1) + 1) with (head q + 1 * MAXELT) by lia.
      apply Z.mod_add. discriminate.
    + apply (f_equal2 Z.modulo); [lia | reflexivity].
  - unfold n. destruct (Z.eqb_spec (count q) 0); unfold MAXELT in *; lia.
Qed.

Lemma list_queue_live qno s q :
  live qno s q ->
  list_queue qno s
  = Some (QE_NONE, s,
          print_header (ticket_index qno) (ticket_nonce qno)
                       (count q) (head q)
          :: map (fun k => print_elt
                             (que_get q ((head q + Z.of_nat k) mod MAXELT)))
                 (seq 0 (Z.to_nat (if count q =? 0 then MAXELT else count q)))
             ++ [print_newline]).
Proof.
  intros Hl. unfold list_queue.
  rewrite (readref_live _ _ _ Hl), (live_error_free _ _ _ Hl).
  pose proof (live_index_range _ _ _ Hl) as Hidx.
  destruct Hl as (_ & -> & _ & Hok).
  pose proof Hok as Hok'. apply queue_ok_spec in Hok' as (Hh & _).
  destruct (Z.eqb_spec (head q) EMPTY) as [He | _];
    [unfold EMPTY in He; lia |].
  cbn [negb]. rewrite (list_loop_live q Hok).
  rewrite to_uint_small by (unfold MAXQ in Hidx; lia). reflexivity.
Qed.

Lemma list_queue_frame qno s r s' out :
  list_queue qno s = Some (r, s', out) ->
  queues s' = queues s /\ noncectr s' = noncectr s.
Proof.
  destruct (QE_ISERROR (fst (readref qno s))) eqn:Herr.
  - unfold list_queue. pose proof (readref_frame qno s) as Hframe.
    destruct (readref qno s) as [cur s1]. cbn [fst snd] in *. rewrite Herr.
    intros [= _ <- _]. exact Hframe.
  - destruct (readref_accepts qno s Herr) as (q & Hl & _).
    rewrite (list_queue_live _ _ _ Hl). intros [= _ <- _]. auto.
Qed.

(** X1. [list_queue] always returns: MAXELT iterations are enough for its
    loop. It writes neither [queues] nor [noncectr]. With a ticket that
    [readref] rejects it returns the error of [readref] and prints nothing;
    with a ticket [readref] accepts it returns QE_NONE, leaves the whole
    state as it is and prints a header, at least one element and a
    newline. *)
Theorem list_queue_returns qno s :
  exists r out,
    list_queue qno s = Some (r, snd (readref qno s), out) /\
    queues (snd (readref qno s)) = queues s /\
    noncectr (snd (readref qno s)) = noncectr s /\
    (QE_ISERROR (fst (readref qno s)) = true ->
     r = fst (readref qno s) /\ out = []) /\
    (QE_ISERROR (fst (readref qno s)) = false ->
     r = QE_NONE /\ snd (readref qno s) = s /\ (3 <= length out)%nat).
Proof.
  destruct (readref_frame qno s) as [Hq Hn].
  destruct (QE_ISERROR (fst (readref qno s))) eqn:Herr.
  - exists (fst (readref qno s)), []. unfold list_queue.
    destruct (readref qno s) as [cur s1]. cbn [fst snd] in *. rewrite Herr.
    repeat split; auto; discriminate.
  - destruct (readref_accepts qno s Herr) as (q & Hl & Hr).
    rewrite (list_queue_live _ _ _ Hl), Hr. cbn [snd].
    eexists _, _. split; [reflexivity |].
    split; [reflexivity |]. split; [reflexivity |].
    split; [discriminate |]. intros _. split; [reflexivity |].
    split; [reflexivity |].
    cbn [length]. rewrite length_app, length_map, length_seq. cbn [length].
    destruct Hl as (_ & _ & _ & Hok). apply queue_ok_spec in Hok.
    destruct (Z.eqb_spec (count q) 0); unfold MAXELT in *; lia.
Qed.

(** X2. For a live queue that holds at least one element [list_queue]
    prints, between header and newline, exactly the elements of the queue,
    oldest first: the values [take_off_queue] would return, in that order.
    The header carries the index and the generation field of the ticket and
    the count and head of the queue. *)
Theorem list_queue_prints_contents qno s q :
  live qno s q -> count q <> 0 ->
  list_queue qno s
  = Some (QE_NONE, s,
          print_header (ticket_index qno) (ticket_nonce qno)
                       (count q) (head q)
          :: map print_elt (contents q) ++ [print_newline]).
Proof.
  intros Hl Hne. rewrite (list_queue_live _ _ _ Hl).
  destruct (Z.eqb_spec (count q) 0) as [? | _]; [contradiction |].
  unfold contents. rewrite map_map.
  destruct Hl as (_ & _ & _ & Hok). apply queue_ok_spec in Hok as (Hh & _).
  rewrite (map_ext
             (fun k => print_elt
                         (que_get q (Z.rem (head q + Z.of_nat k) MAXELT)))
             (fun k => print_elt
                         (que_get q ((head q + Z.of_nat k) mod MAXELT))));
    [reflexivity |].
  intros k. rewrite rem_MAXELT by lia. reflexivity.
Qed.

Lemma list_queue_prints_contents_witness :
  list_queue first_ticket holds_minus3
  = Some (QE_NONE, holds_minus3,
          [print_header 0 0x0503 1 0; print_elt (-3); print_newline]).
Proof.
  assert (Hl : live first_ticket holds_minus3
                 {| ticket := first_ticket;
                    que := <[0%nat := -3]> (replicate (Z.to_nat MAXELT) 5);
                    head := 0; count := 1 |})
    by (repeat split; vm_compute; reflexivity).
  rewrite (list_queue_prints_contents _ _ _ Hl); [reflexivity | discriminate].
Defined.

(** X3. For a live queue that holds no element [list_queue] does not print
    an empty list: its do-while loop prints the cell at head before it
    tests for the end, and then goes once round the array, so all MAXELT
    cells are printed, starting at head. *)
Theorem list_queue_empty_prints_array qno s q :
  live qno s q -> count q = 0 ->
  list_queue qno s
  = Some (QE_NONE, s,
          print_header (ticket_index qno) (ticket_nonce qno) 0 (head q)
          :: map (fun k => print_elt
                             (que_get q ((head q + Z.of_nat k) mod MAXELT)))
                 (seq 0 (Z.to_nat MAXELT))
             ++ [print_newline]).
Proof.
  intros Hl H0. rewrite (list_queue_live _ _ _ Hl), H0. reflexivity.
Qed.

Lemma list_queue_empty_prints_array_witness :
  list_queue first_ticket one_queue
  = Some (QE_NONE, one_queue,
          print_header 0 0x0503 0 0
          :: replicate (Z.to_nat MAXELT) (print_elt 5) ++ [print_newline]).
Proof.
  assert (Hl : live first_ticket one_queue
                 {| ticket := first_ticket;
                    que := replicate (Z.to_nat MAXELT) 5;
                    head := 0; count := 0 |})
    by (repeat split; vm_compute; reflexivity).
  rewrite (list_queue_empty_prints_array _ _ _ Hl eq_refl).
  vm_compute. reflexivity.
Defined.

(** ** The ring buffer against a list *)

Lemma contents_length q : length (contents q) = Z.to_nat (count q).
Proof. unfold contents. rewrite length_map, length_seq. reflexivity. Qed.

Lemma live_ERRBUF qno s q m : live qno s q -> live qno (ERRBUF m s) q.
Proof. intros Hl. exact Hl. Qed.

(** One put or take on a live queue does to its contents what the list
    model does, and returns what the list model returns. *)
Lemma queue_op_refines qno o s q :
  live qno s q -> queue_shape q -> queue_op qno o = true ->
  exists q',
    fst (step o s) = fst (fifo_model_step o (contents q)) /\
    live qno (snd (step o s)) q' /\ queue_shape q' /\
    contents q' = snd (fifo_model_step o (contents q)).
Proof.
  intros Hl Hshape Hop.
  pose proof Hl as (_ & _ & Ht & Hok).
  pose proof Hok as Hok'. apply queue_ok_spec in Hok' as (Hh & Hc & _).
  destruct o as [blk | q0 | q0 n | q0]; cbn [queue_op] in Hop;
    try discriminate; apply Z.eqb_eq in Hop; subst q0.
  - change (step (OpPut qno n) s) with (put_on_queue qno n s).
    rewrite (put_on_queue_live _ _ _ _ Hl). cbn [fifo_model_step].
    rewrite contents_length, Z2Nat.id by lia.
    destruct (Z.eqb_spec (count q) MAXELT) as [Hfull | Hroom]; cbn [fst snd].
    + exists q. repeat split; try apply Hl; auto.
    + eexists. split; [reflexivity |]. split; [| split].
      * apply (live_set_slot _ _ _ _ Hl); [exact Ht |].
        apply queue_ok_put; assumption.
      * unfold queue_shape, que_set. cbn [que]. rewrite length_insert.
        exact Hshape.
      * apply contents_put; assumption.
  - change (step (OpTake qno) s) with (take_off_queue qno s).
    rewrite (take_off_queue_live _ _ _ Hl). cbn [fifo_model_step].
    destruct (Z.eqb_spec (count q) 0) as [Hempty | Hsome]; cbn [fst snd].
    + rewrite (contents_empty q Hempty). cbn [fst snd].
      exists q. repeat split; try apply Hl; auto.
      apply contents_empty, Hempty.
    + rewrite (contents_take q Hok Hsome). cbn [fst snd].
      eexists. split; [reflexivity |]. split; [| split].
      * apply (live_set_slot _ _ _ _ Hl); [exact Ht |].
        apply queue_ok_take; assumption.
      * exact Hshape.
      * reflexivity.
Qed.

Lemma fifo_model_run_cons o ops l :
  fifo_model_run (o :: ops) l =
    (fst (fifo_model_step o l)
       :: fst (fifo_model_run ops (snd (fifo_model_step o l))),
     snd (fifo_model_run ops (snd (fifo_model_step o l)))).
Proof.
  cbn [fifo_model_run]. destruct (fifo_model_step o l) as [r l1].
  cbn [fst snd]. destruct (fifo_model_run ops l1) as [rs l2]. reflexivity.
Qed.

(** X4. The ring buffer of a live queue behaves as a FIFO list of capacity
    MAXELT under every sequence of puts and takes, in any order and for any
    head position, wrap-around included: each call returns what the list
    model returns (QE_NONE or QE_TOOFULL for a put, the oldest element or
    QE_EMPTY for a take), and the elements the queue holds afterwards are
    those of the model, in the same order. *)
Theorem ring_buffer_refines_fifo ops : forall qno s q,
  live qno s q -> queue_shape q ->
  forallb (queue_op qno) ops = true ->
  fst (run ops s) = fst (fifo_model_run ops (contents q)) /\
  exists q',
    live qno (snd (run ops s)) q' /\ queue_shape q' /\
    contents q' = snd (fifo_model_run ops (contents q)).
Proof.
  induction ops as [| o ops IH]; intros qno s q Hl Hshape Hops.
  - cbn [run fifo_model_run fst snd]. split; [reflexivity |].
    exists q. auto.
  - cbn [forallb] in Hops. apply andb_true_iff in Hops as [Hop Hops].
    rewrite run_cons, fifo_model_run_cons. cbn [fst snd].
    destruct (queue_op_refines qno o s q Hl Hshape Hop)
      as (q1 & Hr & Hl1 & Hshape1 & Hc1).
    destruct (IH qno (snd (step o s)) q1 Hl1 Hshape1 Hops)
      as (Hrs & q' & Hl' & Hshape' & Hc').
    rewrite <- Hc1. split.
    + rewrite Hr, Hrs. reflexivity.
    + exists q'. auto.
Qed.

Lemma ring_buffer_refines_fifo_witness :
  fst (run [OpPut first_ticket 11; OpPut first_ticket 12;
            OpTake first_ticket; OpPut first_ticket 13;
            OpTake first_ticket; OpTake first_ticket; OpTake first_ticket]
           one_queue)
  = [QE_NONE; QE_NONE; 11; QE_NONE; 12; 13; QE_EMPTY].
Proof.
  assert (Hl : live first_ticket one_queue
                 {| ticket := first_ticket;
                    que := replicate (Z.to_nat MAXELT) 5;
                    head := 0; count := 0 |})
    by (repeat split; vm_compute; reflexivity).
  destruct (ring_buffer_refines_fifo
              [OpPut first_ticket 11; OpPut first_ticket 12;
               OpTake first_ticket; OpPut first_ticket 13;
               OpTake first_ticket; OpTake first_ticket; OpTake first_ticket]
              _ _ _ Hl) as [Hr _].
  - vm_compute. reflexivity.
  - reflexivity.
  - rewrite Hr. reflexivity.
Defined.

(** ** What the return values say *)

Lemma live_unique qno s q q' : live qno s q -> live qno s q' -> q = q'.
Proof. intros (_ & H1 & _) (_ & H2 & _). congruence. Qed.

(** A ticket [readref] rejects is the ticket of no live queue, and the
    error is QE_BADTICKET or QE_INTINCON. *)
Lemma readref_rejects qno s :
  QE_ISERROR (fst (readref qno s)) = true ->
  (forall q, ~ live qno s q) /\
  (fst (readref qno s) = QE_BADTICKET \/ fst (readref qno s) = QE_INTINCON).
Proof.
  intros Herr. split.
  - intros q Hl. rewrite (readref_live _ _ _ Hl) in Herr. cbn [fst] in Herr.
    rewrite (live_error_free _ _ _ Hl) in Herr. discriminate.
  - destruct (readref_cases qno s)
      as [[_ Hr] | [(_ & _ & Hr) | [(q & _ & _ & _ & Hr) |
          [(q & _ & _ & _ & _ & Hr) | (q & Hl & Hr)]]]]; auto.
    rewrite Hr in Herr. cbn [fst] in Herr.
    rewrite (live_error_free _ _ _ Hl) in Herr. discriminate.
Qed.

(** X5. [put_on_queue] returns QE_NONE exactly when the ticket is that of a
    live queue with room, and then the value is the newest element of the
    queue; it returns QE_TOOFULL exactly when the ticket is that of a live
    queue with MAXELT elements. It returns nothing but QE_NONE, QE_TOOFULL,
    QE_BADTICKET and QE_INTINCON, and whenever it does not return QE_NONE
    the table is as it was. *)
Theorem put_on_queue_outcomes qno n s :
  let r := put_on_queue qno n s in
  (fst r = QE_NONE <-> exists q, live qno s q /\ count q <> MAXELT) /\
  (fst r = QE_TOOFULL <-> exists q, live qno s q /\ count q = MAXELT) /\
  (fst r = QE_NONE \/ fst r = QE_TOOFULL \/
   fst r = QE_BADTICKET \/ fst r = QE_INTINCON) /\
  (fst r <> QE_NONE -> queues (snd r) = queues s) /\
  (forall q, live qno s q -> queue_shape q -> count q <> MAXELT ->
     exists q', live qno (snd r) q' /\ contents q' = contents q ++ [n]).
Proof.
  cbv zeta. destruct (QE_ISERROR (fst (readref qno s))) eqn:Herr.
  - destruct (rejected_by_all qno s Herr) as (_ & Hput & _).
    destruct (readref_rejects qno s Herr) as [Hnl Hcodes].
    rewrite (Hput n). destruct (readref_frame qno s) as [Hq _].
    split; [| split; [| split; [| split]]].
    + split; [destruct Hcodes as [-> | ->]; discriminate |].
      intros (q & Hl & _). destruct (Hnl q Hl).
    + split; [destruct Hcodes as [-> | ->]; discriminate |].
      intros (q & Hl & _). destruct (Hnl q Hl).
    + tauto.
    + intros _. exact Hq.
    + intros q Hl. destruct (Hnl q Hl).
  - destruct (readref_accepts qno s Herr) as (q & Hl & _).
    rewrite (put_on_queue_live _ _ _ _ Hl).
    pose proof Hl as (_ & _ & Ht & Hok).
    destruct (Z.eqb_spec (count q) MAXELT) as [Hfull | Hroom]; cbn [fst snd].
    + split; [| split; [| split; [| split]]].
      * split; [discriminate |]. intros (q' & Hl' & Hne).
        rewrite (live_unique _ _ _ _ Hl' Hl) in Hne. contradiction.
      * split; [intros _; exists q; auto | reflexivity].
      * tauto.
      * intros _. reflexivity.
      * intros q' Hl' _ Hne.
        rewrite (live_unique _ _ _ _ Hl' Hl) in Hne. contradiction.
    + split; [| split; [| split; [| split]]].
      * split; [intros _; exists q; auto | reflexivity].
      * split; [discriminate |]. intros (q' & Hl' & Heq).
        rewrite (live_unique _ _ _ _ Hl' Hl) in Heq. contradiction.
      * tauto.
      * intros Hne. contradiction.
      * intros q' Hl' Hshape _.
        rewrite (live_unique _ _ _ _ Hl' Hl) in *.
        eexists. split.
        -- apply (live_set_slot _ _ _ _ Hl); [exact Ht |].
           apply queue_ok_put; assumption.
        -- apply contents_put; assumption.
Qed.

Lemma put_on_queue_outcomes_witness :
  exists q', live first_ticket (snd (put_on_queue first_ticket 11 one_queue)) q'
             /\ contents q' = [11].
Proof.
  assert (Hl : live first_ticket one_queue
                 {| ticket := first_ticket;
                    que := replicate (Z.to_nat MAXELT) 5;
                    head := 0; count := 0 |})
    by (repeat split; vm_compute; reflexivity).
  destruct (put_on_queue_outcomes first_ticket 11 one_queue)
    as (_ & _ & _ & _ & Hnew).
  destruct (Hnew _ Hl) as (q' & Hl' & Hc).
  - vm_compute. reflexivity.
  - discriminate.
  - exists q'. split; [exact Hl' | exact Hc].
Defined.

(** X6. [delete_queue] returns QE_NONE exactly when the ticket is that of a
    live queue; otherwise it returns QE_BADTICKET or QE_INTINCON and the
    table is as it was. After it has returned QE_NONE the slot of the ticket
    is free, every other slot is as before, and the ticket is rejected with
    QE_BADTICKET by [delete_queue] (a queue is not deleted twice),
    [put_on_queue] and [take_off_queue]. *)
Theorem delete_queue_outcomes qno s :
  let r := delete_queue qno s in
  (fst r = QE_NONE <-> exists q, live qno s q) /\
  (fst r = QE_NONE \/ fst r = QE_BADTICKET \/ fst r = QE_INTINCON) /\
  (fst r <> QE_NONE -> queues (snd r) = queues s) /\
  (fst r = QE_NONE ->
   slot (snd r) (ticket_index qno) = None /\
   (forall j, Z.to_nat j <> Z.to_nat (ticket_index qno) ->
              slot (snd r) j = slot s j) /\
   fst (delete_queue qno (snd r)) = QE_BADTICKET /\
   (forall n, fst (put_on_queue qno n (snd r)) = QE_BADTICKET) /\
   fst (take_off_queue qno (snd r)) = QE_BADTICKET).
Proof.
  cbv zeta. destruct (QE_ISERROR (fst (readref qno s))) eqn:Herr.
  - destruct (rejected_by_all qno s Herr) as (Hdel & _).
    destruct (readref_rejects qno s Herr) as [Hnl Hcodes].
    rewrite Hdel. destruct (readref_frame qno s) as [Hq _].
    split; [| split; [| split]].
    + split; [destruct Hcodes as [-> | ->]; discriminate |].
      intros (q & Hl). destruct (Hnl q Hl).
    + tauto.
    + intros _. exact Hq.
    + destruct Hcodes as [-> | ->]; discriminate.
  - destruct (readref_accepts qno s Herr) as (q & Hl & _).
    rewrite (delete_queue_live _ _ _ Hl). cbn [fst snd].
    split; [| split; [| split]].
    + split; [intros _; exists q; exact Hl | reflexivity].
    + tauto.
    + intros Hne. contradiction.
    + intros _.
      pose proof (live_index_range _ _ _ Hl) as Hidx.
      destruct Hl as (_ & Hslot & _).
      set (s' := set_slot (ticket_index qno) None s).
      assert (Hfree : slot s' (ticket_index qno) = None).
      { apply slot_set_slot_eq. eapply slot_in_table. exact Hslot. }
      assert (Hrej : fst (readref qno s') = QE_BADTICKET).
      { destruct (readref_cases qno s')
          as [[_ Hr] | [(_ & _ & Hr) | [(q' & _ & Hs' & _) |
              [(q' & _ & Hs' & _) | (q' & (_ & Hs' & _) & _)]]]];
          try exact Hr; congruence. }
      assert (Herr' : QE_ISERROR (fst (readref qno s')) = true)
        by (rewrite Hrej; reflexivity).
      destruct (rejected_by_all qno s' Herr') as (Hd & Hp & Ht).
      split; [exact Hfree |]. split.
      { intros j Hj. apply slot_set_slot_ne. auto. }
      rewrite Hd, Ht. split; [exact Hrej |].
      split; [intros n; rewrite Hp; exact Hrej | exact Hrej].
Qed.

Lemma delete_queue_outcomes_witness :
  slot (snd (delete_queue first_ticket one_queue)) 0 = None /\
  fst (delete_queue first_ticket (snd (delete_queue first_ticket one_queue)))
  = QE_BADTICKET.
Proof.
  destruct (delete_queue_outcomes first_ticket one_queue)
    as (_ & _ & _ & Hafter).
  destruct Hafter as (Hfree & _ & Hagain & _).
  - vm_compute. reflexivity.
  - split; [exact Hfree | exact Hagain].
Defined.

(** ** Queues do not disturb each other *)

Lemma live_slot_eq h s s' q :
  slot s' (ticket_index h) = slot s (ticket_index h) ->
  live h s q -> live h s' q.
Proof.
  intros Heq (Hlt & Hslot & Ht & Hok). repeat split; auto. congruence.
Qed.

Lemma slot_queues s s' i : queues s' = queues s -> slot s' i = slot s i.
Proof. unfold slot. intros ->. reflexivity. Qed.

(** A call made with an accepted ticket other than [h] writes a slot other
    than the one of the live ticket [h]. *)
Lemma other_ticket_other_slot h qno s q q2 :
  live h s q -> live qno s q2 -> qno <> h ->
  Z.to_nat (ticket_index qno) <> Z.to_nat (ticket_index h).
Proof.
  intros Hl Hl2 Hne Heq.
  pose proof (live_index_range _ _ _ Hl) as Hi.
  pose proof (live_index_range _ _ _ Hl2) as Hi2.
  assert (Hidx : ticket_index qno = ticket_index h) by lia.
  destruct Hl as (_ & Hs & Ht & _). destruct Hl2 as (_ & Hs2 & Ht2 & _).
  rewrite Hidx in Hs2. congruence.
Qed.

(** X7. A live queue is changed through its own ticket only. Whatever call
    is made that does not present the ticket [h] of a live queue, be it
    [create_queue] or a call with any other ticket, valid, stale or made
    up, the queue of [h] is afterwards what it was: same head, count and
    elements, and [h] is still accepted. *)
Theorem other_calls_leave_queue h s q o :
  live h s q -> uses_ticket h o = false ->
  live h (snd (step o s)) q.
Proof.
  intros Hl Huse. apply (live_slot_eq h s); [| exact Hl].
  pose proof (live_index_range _ _ _ Hl) as Hidx.
  assert (Hrej : forall qno, slot (snd (readref qno s)) (ticket_index h)
                             = slot s (ticket_index h)).
  { intros qno. apply slot_queues, readref_frame. }
  assert (Hother : forall qno q2 p, qno <> h -> live qno s q2 ->
            slot (set_slot (ticket_index qno) p s) (ticket_index h)
            = slot s (ticket_index h)).
  { intros qno q2 p Hne Hl2. apply slot_set_slot_ne.
    apply (other_ticket_other_slot h qno s q q2 Hl Hl2 Hne). }
  destruct o as [blk | qno | qno n | qno]; cbn [uses_ticket] in Huse;
    try apply Z.eqb_neq in Huse.
  - change (step (OpCreate blk) s) with (create_queue blk s).
    destruct (scan_from_0 s) as (Hcur & _ & Hnull).
    destruct (create_queue_cases blk s)
      as [[_ ->] | [(_ & _ & _ & Hq & _) | [(_ & _ & _ & _ & Hq & _) |
          (Hlt & _ & b & _ & _ & Hq & _)]]];
      try (apply slot_queues; exact Hq); [reflexivity |].
    specialize (Hnull Hlt).
    set (cur := scan (Z.to_nat MAXQ) 0 s) in *. clearbody cur.
    unfold slot at 1. rewrite Hq.
    rewrite list_lookup_insert_ne; [reflexivity |].
    intros Heq. assert (cur = ticket_index h) by lia. subst cur.
    destruct Hl as (_ & Hs & _). congruence.
  - change (step (OpDelete qno) s) with (delete_queue qno s).
    destruct (QE_ISERROR (fst (readref qno s))) eqn:Herr.
    + destruct (rejected_by_all qno s Herr) as (-> & _). apply Hrej.
    + destruct (readref_accepts qno s Herr) as (q2 & Hl2 & _).
      rewrite (delete_queue_live _ _ _ Hl2). cbn [snd].
      apply (Hother qno q2 _ Huse Hl2).
  - change (step (OpPut qno n) s) with (put_on_queue qno n s).
    destruct (QE_ISERROR (fst (readref qno s))) eqn:Herr.
    + destruct (rejected_by_all qno s Herr) as (_ & -> & _). apply Hrej.
    + destruct (readref_accepts qno s Herr) as (q2 & Hl2 & _).
      rewrite (put_on_queue_live _ _ _ _ Hl2).
      destruct (count q2 =? MAXELT); cbn [snd]; [reflexivity |].
      apply (Hother qno q2 _ Huse Hl2).
  - change (step (OpTake qno) s) with (take_off_queue qno s).
    destruct (QE_ISERROR (fst (readref qno s))) eqn:Herr.
    + destruct (rejected_by_all qno s Herr) as (_ & _ & ->). apply Hrej.
    + destruct (readref_accepts qno s Herr) as (q2 & Hl2 & _).
      rewrite (take_off_queue_live _ _ _ Hl2).
      destruct (count q2 =? 0); cbn [snd]; [reflexivity |].
      apply (Hother qno q2 _ Huse Hl2).
Qed.

(** With queues in slots 0 and 2, deleting the queue of slot 2 leaves the
    queue of slot 0 as it is. *)
Lemma other_calls_leave_queue_witness :
  live first_ticket (snd (delete_queue 0x12230505 two_of_three))
       {| ticket := first_ticket; que := que fresh_block;
          head := 0; count := 0 |}.
Proof.
  apply (other_calls_leave_queue first_ticket two_of_three _
           (OpDelete 0x12230505)).
  - repeat split; vm_compute; reflexivity.
  - reflexivity.
Defined.

(** ** Tickets as minted *)

(** X8. The ticket [qtktref] returns decodes to what went into it: the
    index [readref] extracts from it is the index it was minted for, its
    generation field is [noncectr + NOFFSET] as it was before the call and
    is not zero, and read as an [int] the ticket is positive, so it is
    never taken for an error code. *)
Theorem qtktref_ticket_decodes index s :
  0 <= index <= MAXQ ->
  QE_ISERROR (to_int (fst (qtktref index s))) = false ->
  ticket_index (fst (qtktref index s)) = index /\
  ticket_nonce (fst (qtktref index s)) = to_uint (noncectr s + NOFFSET) /\
  ticket_nonce (fst (qtktref index s)) <> 0 /\
  0 < fst (qtktref index s) < 2 ^ 31.
Proof.
  intros Hi. rewrite qtktref_in_range by assumption. cbv zeta.
  pose proof (to_uint_range (noncectr s + NOFFSET)) as Hsum.
  set (sum := to_uint (noncectr s + NOFFSET)) in *. clearbody sum.
  destruct ((2 ^ 16 <=? sum) || (sum =? 0)) eqn:Hcond; cbn [fst].
  - intros H. discriminate H.
  - intros _. rewrite orb_false_iff, Z.leb_gt, Z.eqb_neq in Hcond.
    destruct (mk_ticket_fields index sum Hi ltac:(lia)) as (Ht & Hidx & Hn).
    rewrite Hidx, Hn. repeat split; auto; try lia.
    unfold mk_ticket, IOFFSET in *. lia.
Qed.

Lemma qtktref_ticket_decodes_witness :
  ticket_index (fst (qtktref 5 init_state)) = 5 /\
  ticket_nonce (fst (qtktref 5 init_state)) = 0x0503.
Proof.
  destruct (qtktref_ticket_decodes 5 init_state) as (Hi & Hn & _).
  - unfold MAXQ. lia.
  - reflexivity.
  - split; [exact Hi | rewrite Hn; reflexivity].
Defined.

(** X9. The ticket a successful [create_queue] returns is at once the
    ticket of a live queue, and that queue is empty: [readref] accepts it,
    [take_off_queue] returns QE_EMPTY and [delete_queue] returns QE_NONE,
    whatever the block that [malloc] returned held. *)
Theorem create_queue_ticket_live blk s :
  table_shape s ->
  let r := create_queue blk s in
  QE_ISERROR (to_int (fst r)) = false ->
  (exists q, live (fst r) (snd r) q /\ head q = 0 /\ count q = 0 /\
             contents q = []) /\
  readref (fst r) (snd r) = (ticket_index (fst r), snd r) /\
  fst (take_off_queue (fst r) (snd r)) = QE_EMPTY /\
  fst (delete_queue (fst r) (snd r)) = QE_NONE.
Proof.
  intros Hshape r Hok.
  destruct (scan_from_0 s) as (Hcur & _).
  pose proof (to_uint_range (noncectr s + NOFFSET)) as Hsum.
  pose proof (create_queue_cases blk s) as Hcases. cbv zeta in Hcases.
  fold r in Hcases.
  set (cur := scan (Z.to_nat MAXQ) 0 s) in *.
  set (sum := to_uint (noncectr s + NOFFSET)) in *. clearbody cur sum.
  destruct Hcases
    as [[_ Hr] | [(_ & _ & Hr & _) | [(_ & _ & _ & Hr & _) |
        (Hlt & Hgood & b & _ & Hr & Hq & _)]]];
    try (rewrite Hr in Hok; discriminate Hok).
  destruct (mk_ticket_fields cur sum Hcur ltac:(lia)) as (Ht & Hidx & Hn).
  set (q := {| ticket := mk_ticket cur sum; que := que b;
               head := 0; count := 0 |}) in *.
  assert (Hl : live (fst r) (snd r) q).
  { rewrite Hr. unfold live. rewrite Hidx. split; [exact Hlt |].
    split; [| split; [reflexivity |]].
    - apply slot_lookup. rewrite Hq. apply list_lookup_insert_eq.
      rewrite Hshape. unfold MAXQ in *. lia.
    - apply queue_ok_spec. unfold q. cbn [head count ticket].
      rewrite Hn. unfold MAXELT. lia. }
  clearbody r.
  split; [exists q; split; [exact Hl | repeat split] |].
  split; [apply (readref_live _ _ _ Hl) |].
  rewrite (take_off_queue_live _ _ _ Hl), (delete_queue_live _ _ _ Hl).
  split; reflexivity.
Qed.

Lemma create_queue_ticket_live_witness :
  fst (take_off_queue (fst (create_queue (Some fresh_block) slot0_freed))
         (snd (create_queue (Some fresh_block) slot0_freed))) = QE_EMPTY.
Proof.
  destruct (create_queue_ticket_live (Some fresh_block) slot0_freed)
    as (_ & _ & Hempty & _).
  - vm_compute. reflexivity.
  - vm_compute. reflexivity.
  - exact Hempty.
Defined.

(** ** The consistency test never fires *)

Lemma table_ok_init : table_ok init_state = true.
Proof. reflexivity. Qed.

Lemma reachable_table_ok s : reachable s -> table_ok s = true.
Proof. intros [ops <-]. apply table_ok_run, table_ok_init. Qed.

(** X10. In a program that reaches its states through the four public
    functions alone, the tests of [readref] for an inconsistent queue never
    fire: in every reachable state, and for every ticket, [readref],
    [delete_queue], [put_on_queue] and [list_queue] do not return
    QE_INTINCON. *)
Theorem reachable_never_inconsistent s qno :
  reachable s ->
  fst (readref qno s) <> QE_INTINCON /\
  fst (delete_queue qno s) <> QE_INTINCON /\
  (forall n, fst (put_on_queue qno n s) <> QE_INTINCON) /\
  (forall r s' out, list_queue qno s = Some (r, s', out) -> r <> QE_INTINCON).
Proof.
  intros Hreach. pose proof (reachable_table_ok s Hreach) as Hok.
  assert (Hread : fst (readref qno s) <> QE_INTINCON).
  { destruct (readref_cases qno s)
      as [[_ Hr] | [(_ & _ & Hr) | [(q & _ & _ & _ & Hr) |
          [(q & _ & Hs & _ & Hbad & _) | (q & Hl & Hr)]]]];
      try (rewrite Hr; discriminate).
    - rewrite (table_ok_slot s _ q Hok Hs) in Hbad. discriminate.
    - rewrite Hr. cbn [fst]. pose proof (live_index_range _ _ _ Hl).
      unfold QE_INTINCON. lia. }
  split; [exact Hread |].
  destruct (QE_ISERROR (fst (readref qno s))) eqn:Herr.
  - destruct (rejected_by_all qno s Herr) as (Hd & Hp & _).
    rewrite Hd. split; [exact Hread |].
    split; [intros n; rewrite Hp; exact Hread |].
    intros r s' out. unfold list_queue.
    destruct (readref qno s) as [cur s1]. cbn [fst] in *. rewrite Herr.
    intros [= <- _ _]. exact Hread.
  - destruct (readref_accepts qno s Herr) as (q & Hl & _).
    rewrite (delete_queue_live _ _ _ Hl). split; [discriminate |]. split.
    + intros n. rewrite (put_on_queue_live _ _ _ _ Hl).
      destruct (count q =? MAXELT); discriminate.
    + intros r s' out. rewrite (list_queue_live _ _ _ Hl).
      intros [= <- _ _]. discriminate.
Qed.

Lemma reachable_never_inconsistent_witness :
  fst (readref first_ticket slot0_freed) <> QE_INTINCON.
Proof.
  apply (reachable_never_inconsistent slot0_freed first_ticket).
  exists [OpCreate (Some fresh_block); OpCreate (Some fresh_block);
          OpDelete first_ticket]. reflexivity.
Defined.

(** ** Values that are no tickets *)

Lemma ticket_index_outside qno :
  0 <= qno < 2 ^ 32 ->
  qno < IOFFSET * 2 ^ 16 \/ (IOFFSET + MAXQ) * 2 ^ 16 <= qno ->
  MAXQ <= ticket_index qno.
Proof.
  intros Hq Hout. unfold ticket_index, to_uint, modulus.
  rewrite land_low16, Z.shiftr_div_pow2 by lia.
  assert (Hhigh : 0 <= qno / 2 ^ 16 < 2 ^ 16).
  { split; [apply Z.div_pos; lia |].
    apply Z.div_lt_upper_bound; lia. }
  rewrite (Z.mod_small (qno / 2 ^ 16)) by lia.
  unfold IOFFSET, MAXQ in *.
  pose proof (Z.div_mod qno (2 ^ 16) ltac:(lia)) as Hdm.
  pose proof (Z.mod_pos_bound qno (2 ^ 16) ltac:(lia)) as Hm.
  destruct Hout as [Hlow | Hhi].
  - assert (Hneg : - 2 ^ 32 <= qno / 2 ^ 16 - 4641 < 0) by lia.
    replace (qno / 2 ^ 16 - 4641)
      with ((qno / 2 ^ 16 - 4641 + 2 ^ 32) + (-1) * 2 ^ 32) by lia.
    rewrite Z.mod_add, Z.mod_small by lia. lia.
  - rewrite Z.mod_small by lia. lia.
Qed.

Lemma readref_outside qno s :
  0 <= qno < 2 ^ 32 ->
  qno < IOFFSET * 2 ^ 16 \/ (IOFFSET + MAXQ) * 2 ^ 16 <= qno ->
  readref qno s
  = (QE_BADTICKET, ERRBUF (msg_readref_exceeds (ticket_index qno) MAXQ) s) /\
  delete_queue qno s = readref qno s /\
  (forall n, put_on_queue qno n s = readref qno s) /\
  take_off_queue qno s = readref qno s.
Proof.
  intros Hq Hout. pose proof (ticket_index_outside qno Hq Hout) as Hidx.
  assert (Hr : readref qno s
               = (QE_BADTICKET,
                  ERRBUF (msg_readref_exceeds (ticket_index qno) MAXQ) s)).
  { unfold readref.
    destruct (Z.geb_spec (ticket_index qno) MAXQ) as [_ | ?]; [| lia].
    reflexivity. }
  assert (Herr : QE_ISERROR (fst (readref qno s)) = true)
    by (rewrite Hr; reflexivity).
  destruct (rejected_by_all qno s Herr) as (Hd & Hp & Ht).
  split; [exact Hr |]. split; [exact Hd |]. split; [exact Hp | exact Ht].
Qed.

(** The values [create_queue] returns: a ticket between 0x12210000 and
    0x16210000, or one of three error codes as an [unsigned]. *)
Lemma create_queue_values blk s :
  let r := fst (create_queue blk s) in
  (QE_ISERROR (to_int r) = false /\
   IOFFSET * 2 ^ 16 <= r < (IOFFSET + MAXQ) * 2 ^ 16) \/
  (QE_ISERROR (to_int r) = true /\
   (r = to_uint QE_TOOMANYQS \/ r = to_uint QE_NOROOM \/
    r = to_uint QE_INTINCON)).
Proof.
  cbv zeta. destruct (scan_from_0 s) as (Hcur & _).
  pose proof (to_uint_range (noncectr s + NOFFSET)) as Hsum.
  pose proof (create_queue_cases blk s) as Hcases. cbv zeta in Hcases.
  set (cur := scan (Z.to_nat MAXQ) 0 s) in *.
  set (sum := to_uint (noncectr s + NOFFSET)) in *. clearbody cur sum.
  destruct Hcases
    as [[_ Hr] | [(_ & _ & Hr & _) | [(_ & _ & _ & Hr & _) |
        (Hlt & Hgood & b & _ & Hr & _)]]]; rewrite Hr; cbn [fst].
  - right. split; [reflexivity | tauto].
  - right. split; [reflexivity | tauto].
  - right. split; [reflexivity | tauto].
  - left. destruct (mk_ticket_fields cur sum Hcur ltac:(lia)) as (Ht & _).
    split.
    + rewrite to_int_small by assumption. apply Z.ltb_ge. lia.
    + unfold mk_ticket, IOFFSET, MAXQ in *. lia.
Qed.

(** X11. A value whose high 16 bits are not IOFFSET plus an index below
    MAXQ is no ticket in any state: every 32-bit value below 0x12210000 or
    from 0x16210000 on is rejected with QE_BADTICKET by [readref], and so by
    [delete_queue], [put_on_queue] and [take_off_queue], which leave the
    table as it is. The tickets [create_queue] returns lie between these
    bounds; the value a failed [create_queue] returns lies outside them, so
    that using it as a ticket is rejected in every state. *)
Theorem values_outside_rejected :
  (forall qno s,
     0 <= qno < 2 ^ 32 ->
     qno < IOFFSET * 2 ^ 16 \/ (IOFFSET + MAXQ) * 2 ^ 16 <= qno ->
     fst (readref qno s) = QE_BADTICKET /\
     queues (snd (readref qno s)) = queues s /\
     delete_queue qno s = readref qno s /\
     (forall n, put_on_queue qno n s = readref qno s) /\
     take_off_queue qno s = readref qno s) /\
  (forall blk s0,
     QE_ISERROR (to_int (fst (create_queue blk s0))) = false ->
     IOFFSET * 2 ^ 16 <= fst (create_queue blk s0)
       < (IOFFSET + MAXQ) * 2 ^ 16) /\
  (forall blk s0 s,
     QE_ISERROR (to_int (fst (create_queue blk s0))) = true ->
     fst (delete_queue (fst (create_queue blk s0)) s) = QE_BADTICKET /\
     (forall n, fst (put_on_queue (fst (create_queue blk s0)) n s)
                = QE_BADTICKET) /\
     fst (take_off_queue (fst (create_queue blk s0)) s) = QE_BADTICKET).
Proof.
  split; [| split].
  - intros qno s Hq Hout.
    destruct (readref_outside qno s Hq Hout) as (Hr & Hd & Hp & Ht).
    split; [rewrite Hr; reflexivity |].
    split; [rewrite Hr; reflexivity |]. auto.
  - intros blk s0 Hok.
    destruct (create_queue_values blk s0) as [[_ Hin] | [Herr _]];
      [exact Hin |].
    rewrite Herr in Hok. discriminate.
  - intros blk s0 s Herr.
    destruct (create_queue_values blk s0) as [[Hok _] | [_ Hcodes]].
    { rewrite Hok in Herr. discriminate. }
    set (r := fst (create_queue blk s0)) in *. clearbody r.
    assert (Hout : 0 <= r < 2 ^ 32 /\ (IOFFSET + MAXQ) * 2 ^ 16 <= r).
    { destruct Hcodes as [-> | [-> | ->]]; by_evaluation. }
    destruct Hout as [Hq Hout].
    destruct (readref_outside r s Hq (or_intror Hout)) as (Hr & Hd & Hp & Ht).
    rewrite Hd, Ht, Hr. split; [reflexivity |].
    split; [intros n; rewrite Hp, Hr; reflexivity | reflexivity].
Qed.

Lemma values_outside_rejected_witness :
  fst (delete_queue 0 one_queue) = QE_BADTICKET /\
  fst (put_on_queue (fst (create_queue None init_state)) 7 one_queue)
  = QE_BADTICKET.
Proof.
  destruct values_outside_rejected as (Hout & _ & Hfailed).
  split.
  - destruct (Hout 0 one_queue) as (Hr & _ & Hd & _).
    + by_evaluation.
    + left. by_evaluation.
    + rewrite Hd. exact Hr.
  - destruct (Hfailed None init_state one_queue) as (_ & Hp & _).
    + vm_compute. reflexivity.
    + apply Hp.
Defined.

(** ** Filling and refilling the table *)

Lemma create_queue_next b s k :
  filled_to k s -> 0 <= k < MAXQ ->
  0 <= noncectr s -> 0 < noncectr s + NOFFSET < 2 ^ 16 ->
  fst (create_queue (Some b) s) = mk_ticket k (noncectr s + NOFFSET) /\
  filled_to (k + 1) (snd (create_queue (Some b) s)) /\
  noncectr (snd (create_queue (Some b) s)) = noncectr s + 1.
Proof.
  intros (Hshape & Hocc & Hfree) Hk Hc Hs.
  assert (Hsum : to_uint (noncectr s + NOFFSET) = noncectr s + NOFFSET)
    by (apply to_uint_small; lia).
  assert (Hinc : to_uint (noncectr s + 1) = noncectr s + 1)
    by (apply to_uint_small; unfold NOFFSET in Hs; lia).
  pose proof (scan_least s k Hk (Hfree k ltac:(lia)) Hocc) as Hscan.
  pose proof (create_queue_cases (Some b) s) as Hcases. cbv zeta in Hcases.
  rewrite Hscan, Hsum, Hinc in Hcases.
  destruct Hcases
    as [[? _] | [(_ & ? & _) | [(_ & _ & ? & _) |
        (_ & _ & b' & _ & Hr & Hq & Hn)]]]; [lia | discriminate | lia |].
  split; [exact Hr |]. split; [| exact Hn].
  set (s' := snd (create_queue (Some b) s)) in *. clearbody s'.
  split; [| split].
  - unfold table_shape. rewrite Hq, length_insert. exact Hshape.
  - intros j Hj. unfold slot. rewrite Hq.
    destruct (Z.eq_dec j k) as [-> | Hne].
    + rewrite list_lookup_insert_eq; [discriminate |].
      rewrite Hshape. unfold MAXQ in *. lia.
    + rewrite list_lookup_insert_ne by lia. apply (Hocc j). lia.
  - intros j Hj. unfold slot. rewrite Hq.
    rewrite list_lookup_insert_ne by lia. apply (Hfree j). lia.
Qed.

Lemma create_all_in_order bs : forall s k,
  filled_to k s -> 0 <= k -> k + Z.of_nat (length bs) <= MAXQ ->
  0 <= noncectr s -> 0 < noncectr s + NOFFSET ->
  noncectr s + NOFFSET + Z.of_nat (length bs) <= 2 ^ 16 ->
  fst (create_all bs s)
  = map (fun i => mk_ticket (k + Z.of_nat i)
                            (noncectr s + Z.of_nat i + NOFFSET))
        (seq 0 (length bs)) /\
  filled_to (k + Z.of_nat (length bs)) (snd (create_all bs s)) /\
  noncectr (snd (create_all bs s)) = noncectr s + Z.of_nat (length bs).
Proof.
  unfold create_all.
  induction bs as [| b bs IH]; intros s k Hfill Hk Hfit Hc Hlo Hhi.
  - cbn [map run fst snd length seq]. rewrite !Z.add_0_r. auto.
  - cbn [length] in *. cbn [map]. rewrite run_cons. cbn [fst snd].
    change (step (OpCreate (Some b)) s) with (create_queue (Some b) s).
    destruct (create_queue_next b s k Hfill ltac:(lia) Hc ltac:(lia))
      as (Hr & Hfill' & Hn').
    set (s1 := snd (create_queue (Some b) s)) in *. clearbody s1.
    destruct (IH s1 (k + 1) Hfill' ltac:(lia) ltac:(lia) ltac:(lia)
                ltac:(lia) ltac:(lia)) as (Hrs & Hfill'' & Hn'').
    rewrite Hr, Hrs. split; [| split].
    + change (seq 0 (S (length bs))) with (0%nat :: seq 1 (length bs)).
      rewrite <- seq_shift. cbn [map]. rewrite map_map.
      change (Z.of_nat 0) with 0. rewrite !Z.add_0_r. f_equal.
      apply map_ext. intros i. rewrite Hn'. f_equal; lia.
    + replace (k + Z.of_nat (S (length bs)))
        with (k + 1 + Z.of_nat (length bs)) by lia. exact Hfill''.
    + rewrite Hn'', Hn'. lia.
Qed.

Lemma filled_to_init : filled_to 0 init_state.
Proof.
  split; [reflexivity |]. split; [intros j Hj; lia |].
  intros j Hj. unfold slot, init_state. cbn [queues].
  destruct (replicate (Z.to_nat MAXQ) None !! Z.to_nat j) as [p |] eqn:Hl;
    [| reflexivity].
  apply lookup_replicate in Hl as [-> _]. reflexivity.
Qed.

(** X12. In a new program the queues are created from the lowest index up:
    as long as [malloc] succeeds, the i-th [create_queue] (counting from 0,
    up to MAXQ calls) returns the ticket for slot [i] with generation field
    [i + 1 + NOFFSET]. After MAXQ of them the table is full and every
    further [create_queue] returns QE_TOOMANYQS. *)
Theorem create_all_from_lowest bs :
  Z.of_nat (length bs) <= MAXQ ->
  fst (create_all bs init_state)
  = map (fun i => mk_ticket (Z.of_nat i) (Z.of_nat i + 1 + NOFFSET))
        (seq 0 (length bs)) /\
  (forall i, (i < length bs)%nat ->
     ticket_index (mk_ticket (Z.of_nat i) (Z.of_nat i + 1 + NOFFSET))
     = Z.of_nat i /\
     slot (snd (create_all bs init_state)) (Z.of_nat i) <> None) /\
  (Z.of_nat (length bs) = MAXQ ->
   forall blk,
     to_int (fst (create_queue blk (snd (create_all bs init_state))))
     = QE_TOOMANYQS).
Proof.
  intros Hlen.
  destruct (create_all_in_order bs init_state 0 filled_to_init)
    as (Hr & Hfill & Hn); cbn [init_state noncectr];
    try (unfold NOFFSET, MAXQ in *; lia).
  cbn [init_state noncectr] in Hr, Hn. rewrite Z.add_0_l in Hfill.
  set (s := snd (create_all bs init_state)) in *. clearbody s.
  split; [| split].
  - rewrite Hr. apply map_ext. intros i. f_equal; lia.
  - intros i Hi. split.
    + apply (mk_ticket_fields (Z.of_nat i) (Z.of_nat i + 1 + NOFFSET));
        unfold NOFFSET, MAXQ in *; lia.
    + destruct Hfill as (_ & Hocc & _). apply Hocc. lia.
  - intros Hfull blk. destruct Hfill as (_ & Hocc & _). rewrite Hfull in Hocc.
    pose proof (scan_full s Hocc) as Hscan.
    pose proof (create_queue_cases blk s) as Hcases. cbv zeta in Hcases.
    rewrite Hscan in Hcases.
    destruct Hcases as [[_ Hc] | [(? & _) | [(? & _) | (? & _)]]]; try lia.
    rewrite Hc. reflexivity.
Qed.

Lemma create_all_from_lowest_witness :
  fst (create_all [fresh_block; fresh_block; fresh_block] init_state)
  = [0x12210503; 0x12220504; 0x12230505].
Proof.
  destruct (create_all_from_lowest [fresh_block; fresh_block; fresh_block])
    as (Hr & _).
  - by_evaluation.
  - rewrite Hr. reflexivity.
Defined.

(** X13. A deleted queue's slot is the next to be given out when the slots
    below it are in use, as they are in a full table: after [delete_queue]
    has deleted the live queue of ticket [h], a [create_queue] that gets a
    block and can mint returns a ticket for the slot of [h], and that slot
    holds the new, empty queue. *)
Theorem create_queue_reuses_deleted h s q b :
  table_shape s -> live h s q ->
  (forall j, 0 <= j < ticket_index h -> slot s j <> None) ->
  0 < to_uint (noncectr s + NOFFSET) < 2 ^ 16 ->
  let s1 := snd (delete_queue h s) in
  let r := create_queue (Some b) s1 in
  QE_ISERROR (to_int (fst r)) = false /\
  ticket_index (fst r) = ticket_index h /\
  slot (snd r) (ticket_index h)
  = Some {| ticket := fst r; que := que b; head := 0; count := 0 |}.
Proof.
  intros Hshape Hl Hbelow Hsum s1 r.
  pose proof (live_index_range _ _ _ Hl) as Hidx.
  assert (Hs1 : s1 = set_slot (ticket_index h) None s).
  { unfold s1. rewrite (delete_queue_live _ _ _ Hl). reflexivity. }
  assert (Hin : (Z.to_nat (ticket_index h) < length (queues s))%nat).
  { destruct Hl as (_ & Hslot & _). eapply slot_in_table. exact Hslot. }
  assert (Hscan : scan (Z.to_nat MAXQ) 0 s1 = ticket_index h).
  { apply scan_least; [exact Hidx | |].
    - rewrite Hs1. apply slot_set_slot_eq. exact Hin.
    - intros j Hj. rewrite Hs1, slot_set_slot_ne by lia. apply Hbelow, Hj. }
  assert (Hn1 : noncectr s1 = noncectr s) by (rewrite Hs1; reflexivity).
  assert (Hlen : length (queues s1) = length (queues s)).
  { rewrite Hs1. unfold set_slot. cbn [queues]. apply length_insert. }
  pose proof (create_queue_cases (Some b) s1) as Hcases. cbv zeta in Hcases.
  fold r in Hcases. rewrite Hscan, Hn1 in Hcases.
  set (sum := to_uint (noncectr s + NOFFSET)) in *.
  clearbody r s1 sum.
  destruct Hcases
    as [[? _] | [(_ & ? & _) | [(_ & _ & ? & _) |
        (_ & _ & b' & Hb & Hr & Hq & _)]]]; [lia | discriminate | lia |].
  injection Hb as <-.
  destruct (mk_ticket_fields (ticket_index h) sum ltac:(lia) ltac:(lia))
    as (Ht & Hi & _).
  rewrite Hr. split; [| split; [exact Hi |]].
  - rewrite to_int_small by assumption. apply Z.ltb_ge. lia.
  - apply slot_lookup. rewrite Hq. apply list_lookup_insert_eq.
    rewrite Hlen. exact Hin.
Qed.

(** Slots 0, 1 and 2 in use: after the queue of slot 1 is deleted the next
    queue gets slot 1. *)
Lemma create_queue_reuses_deleted_witness :
  ticket_index
    (fst (create_queue (Some fresh_block)
            (snd (delete_queue 0x12220504
                    (snd (create_all [fresh_block; fresh_block; fresh_block]
                            init_state)))))) = 1.
Proof.
  assert (Hl : live 0x12220504
                 (snd (create_all [fresh_block; fresh_block; fresh_block]
                         init_state))
                 {| ticket := 0x12220504; que := que fresh_block;
                    head := 0; count := 0 |})
    by (repeat split; vm_compute; reflexivity).
  assert (Hshape : table_shape
                     (snd (create_all [fresh_block; fresh_block; fresh_block]
                             init_state)))
    by (vm_compute; reflexivity).
  destruct (create_queue_reuses_deleted _ _ _ fresh_block Hshape Hl)
    as (_ & Hi & _).
  - intros j Hj. change (ticket_index 0x12220504) with 1 in Hj.
    assert (j = 0) as -> by lia. vm_compute. discriminate.
  - by_evaluation.
  - rewrite Hi. reflexivity.
Defined.

(** ** The error buffer *)





(** ** Who moves the counter *)

(** X15. Only a [create_queue] that gets as far as minting moves
    [noncectr]: the calls that take a ticket never change it, and
    [create_queue] adds one to it (in [unsigned] arithmetic) exactly when
    the table has a free slot and [malloc] returned a block, whether the
    mint then succeeds or not; a [create_queue] that fails for want of a
    slot or of memory uses up no generation value. *)
Theorem noncectr_moved_by_mint_only :
  (forall qno s,
     noncectr (snd (delete_queue qno s)) = noncectr s /\
     (forall n, noncectr (snd (put_on_queue qno n s)) = noncectr s) /\
     noncectr (snd (take_off_queue qno s)) = noncectr s /\
     (forall r s' out, list_queue qno s = Some (r, s', out) ->
                       noncectr s' = noncectr s)) /\
  (forall blk s,
     ((exists i, 0 <= i < MAXQ /\ slot s i = None) /\ blk <> None ->
      noncectr (snd (create_queue blk s)) = to_uint (noncectr s + 1)) /\
     (~ ((exists i, 0 <= i < MAXQ /\ slot s i = None) /\ blk <> None) ->
      noncectr (snd (create_queue blk s)) = noncectr s)).
Proof.
  split.
  - intros qno s. destruct (noncectr_ticket_ops qno s) as (Hd & Hp & Ht).
    split; [exact Hd |]. split; [exact Hp |]. split; [exact Ht |].
    intros r s' out Hlist.
    exact (proj2 (list_queue_frame qno s r s' out Hlist)).
  - intros blk s.
    pose proof (free_slot_scan s) as Hfree. pose proof (scan_full s) as Hfull.
    destruct (scan_from_0 s) as (Hcur & _ & Hnull).
    pose proof (create_queue_cases blk s) as Hcases. cbv zeta in Hcases.
    set (cur := scan (Z.to_nat MAXQ) 0 s) in *. clearbody cur.
    destruct Hcases
      as [[Hc Hr] | [(Hc & Hblk & _ & _ & Hn) | [(Hc & Hblk & _ & _ & _ & Hn) |
          (Hc & _ & b & Hblk & _ & _ & Hn)]]].
    + rewrite Hr. cbn [snd ERRBUF noncectr]. split; [| reflexivity].
      intros [Hex _]. specialize (Hfree Hex). lia.
    + split; [| intros _; exact Hn]. intros [_ Hne]. contradiction.
    + split; [intros _; exact Hn |]. intros Hno. exfalso. apply Hno.
      split; [| exact Hblk]. exists cur. split; [lia | apply Hnull, Hc].
    + split; [intros _; exact Hn |]. intros Hno. exfalso. apply Hno.
      split; [| rewrite Hblk; discriminate].
      exists cur. split; [lia | apply Hnull, Hc].
Qed.

Lemma noncectr_moved_by_mint_only_witness :
  noncectr (snd (create_queue (Some fresh_block) one_queue)) = 3 /\
  noncectr (snd (create_queue None one_queue)) = 2.
Proof.
  destruct noncectr_moved_by_mint_only as [_ Hcreate]. split.
  - destruct (Hcreate (Some fresh_block) one_queue) as [Hmove _].
    rewrite Hmove; [reflexivity |].
    split; [exists 1; split; [unfold MAXQ; lia | reflexivity] | discriminate].
  - destruct (Hcreate None one_queue) as [_ Hstay].
    rewrite Hstay; [reflexivity |]. intros [_ Hne]. contradiction.
Defined.
